(** * BUSDIV Awards Dashboard: the data-shaping pipeline

    A shallow embedding of the pure part of the dashboard component
    ([tidyRow], [parseCsvText], [assessRecDeact], [allYears],
    [visibleYears], [filtered], [downloadFilteredCsv]) and the properties
    its specification states about it.

    Modelling conventions.
    - A JavaScript string is the list of its UTF-16 code units ([list N]);
      [js] writes the code units of a literal of ASCII characters.
    - A JavaScript object used as a dictionary is a [gmap] keyed by strings;
      [m !! k = None] is the [undefined] of a missing property.  The order
      in which [Object.keys] lists the keys is not kept: the component only
      ever builds another object from them or sorts them.
    - A JavaScript number is a binary64 double: the primitive [float], with
      its rounding arithmetic, its comparisons, the two zeros, the
      infinities and [NaN].  [Prim2SF] gives the sign, mantissa and exponent
      of a double and [Num.to_Q] its exact value.
    - [String.prototype.toLowerCase] is the Unicode case mapping of the
      engine; the pipeline takes it as a parameter.
    - The other built-ins the component calls ([Number], [Math.max],
      [Array.prototype.sort], [slice], [indexOf], [toFixed], the conversion
      of a number to a string, [join], [Papa.parse]) are given by executable
      definitions that follow their specification. *)

From Stdlib Require Import ZArith QArith Qround Qpower Qfield Zpower Ascii String Lia.
From Stdlib Require Import PrimFloat SpecFloat FloatOps FloatAxioms.
From stdpp Require Import gmap list fin_maps pretty numbers sorting.

#[local] Set Warnings "-inexact-float".

(** ** Strings *)

Abbreviation jsstring := (list N).

(** The code units of a literal of ASCII characters. *)
Definition js (s : string) : jsstring := N_of_ascii <$> list_ascii_of_string s.
Arguments js s%_string.

Module Str.

Definition is_digit (c : N) : bool := ((48 <=? c) && (c <=? 57))%N.

(** [WhiteSpace] and [LineTerminator]: what [String.prototype.trim] and
    [Number] strip.  TAB, LF, VT, FF, CR, SPACE, NBSP, U+1680,
    U+2000..U+200A, LS, PS, U+202F, U+205F, U+3000 and U+FEFF. *)
Definition is_space (c : N) : bool :=
  (((9 <=? c) && (c <=? 13)) || (c =? 32) || (c =? 160) || (c =? 5760) ||
   ((8192 <=? c) && (c <=? 8202)) || (c =? 8232) || (c =? 8233) ||
   (c =? 8239) || (c =? 8287) || (c =? 12288) || (c =? 65279))%N.

Fixpoint trimStart (s : jsstring) : jsstring :=
  match s with
  | c :: t => if is_space c then trimStart t else s
  | [] => []
  end.

Fixpoint trimEnd (s : jsstring) : jsstring :=
  match s with
  | [] => []
  | c :: t =>
      match trimEnd t with
      | [] => if is_space c then [] else [c]
      | t' => c :: t'
      end
  end.

(** [s.trim()] *)
Definition trim (s : jsstring) : jsstring := trimEnd (trimStart s).

Fixpoint startsWith (needle hay : jsstring) : bool :=
  match needle, hay with
  | [], _ => true
  | c :: n, d :: h => (c =? d)%N && startsWith n h
  | _ :: _, [] => false
  end.

(** [hay.includes(needle)] *)
Fixpoint includes (needle hay : jsstring) : bool :=
  startsWith needle hay ||
  match hay with
  | [] => false
  | _ :: t => includes needle t
  end.

(** [s.replaceAll(c, by)] for a pattern of one code unit. *)
Fixpoint replaceAll (c : N) (by_ : jsstring) (s : jsstring) : jsstring :=
  match s with
  | [] => []
  | d :: t =>
      if (c =? d)%N then by_ ++ replaceAll c by_ t
      else d :: replaceAll c by_ t
  end.

(** [parts.join(sep)] *)
Fixpoint join (sep : jsstring) (parts : list jsstring) : jsstring :=
  match parts with
  | [] => []
  | [p] => p
  | p :: ps => p ++ sep ++ join sep ps
  end.

(** The default order of [Array.prototype.sort]: by code units. *)
Fixpoint ltb (a b : jsstring) : bool :=
  match a, b with
  | _, [] => false
  | [], _ :: _ => true
  | c :: a', d :: b' => (c <? d)%N || ((c =? d)%N && ltb a' b')
  end.

End Str.

(** ** Array built-ins *)

(** An integer argument of [slice] after [ToIntegerOrInfinity]. *)
Inductive index : Type :=
| NegInfinity
| Index (z : Z)
| PosInfinity.

Coercion Index : Z >-> index.

Module Arr.
Section Slice.
Context {A : Type}.

(** A relative index of [slice], clamped into [0 .. len]. *)
Definition clamp (len : nat) (i : index) : nat :=
  match i with
  | NegInfinity => 0
  | Index z => if (z <? 0)%Z then Z.to_nat (Z.max 0 (Z.of_nat len + z))
               else Nat.min (Z.to_nat z) len
  | PosInfinity => len
  end.

(** [l.slice(from, to)] *)
Definition slice (from to : index) (l : list A) : list A :=
  let k := clamp (length l) from in
  let e := clamp (length l) to in
  take (e - k) (drop k l).

(** [l.slice(from)] *)
Definition slice_from (from : index) (l : list A) : list A :=
  drop (clamp (length l) from) l.

(** [l.reduce(f, init)] *)
Definition reduce {B} (f : B → A → B) (init : B) (l : list A) : B :=
  fold_left f l init.
End Slice.

(** [l.indexOf(x)]: the first position of [x], or [-1]. *)
Fixpoint indexOf `{EqDecision A} (l : list A) (x : A) : Z :=
  match l with
  | [] => -1
  | y :: t =>
      if decide (y = x) then 0
      else let i := indexOf t x in if (i <? 0)%Z then -1 else (i + 1)%Z
  end.

(** [Array.prototype.sort] is stable, and with a consistent comparator its
    result is the sorted permutation of its input; the stable sorted
    permutation is unique, so the built-in is modelled by insertion.
    [before a b] is "the comparator is negative on [(a, b)]".  Each element
    is placed in front of the sorted rest unless an element of the rest
    must come strictly before it. *)
Section Sort.
Context {A : Type} (before : A → A → bool).

Fixpoint insert (x : A) (l : list A) : list A :=
  match l with
  | [] => [x]
  | y :: t => if before y x then y :: insert x t else x :: y :: t
  end.

Fixpoint sort (l : list A) : list A :=
  match l with
  | [] => []
  | x :: t => insert x (sort t)
  end.
End Sort.
End Arr.

(** ** Numbers *)

(** Two doubles are the same double or not: [Leibniz.eqb] tells. *)
#[global] Instance float_eq_dec : EqDecision float := λ x y,
  match Leibniz.eqb x y as b return Leibniz.eqb x y = b → Decision (x = y) with
  | true => λ H, left (proj1 (Leibniz.eqb_spec x y) H)
  | false => λ H, right (λ Hxy : x = y,
               Bool.diff_false_true
                 (eq_trans (eq_sym H) (proj2 (Leibniz.eqb_spec x y) Hxy)))
  end eq_refl.

Module Num.

(** *** The value of a double, and the double of a value *)

(** The real number a finite double stands for: [m * 2^e] with its sign. *)
Definition SF2Q (x : spec_float) : Q :=
  match x with
  | S754_finite s m e =>
      ((if s then inject_Z (-1) else inject_Z 1) * inject_Z (Zpos m) * inject_Z 2 ^ e)%Q
  | _ => 0%Q
  end.

Definition to_Q (x : float) : Q := SF2Q (Prim2SF x).

(** [num / den], to the nearest integer, a tie to the even one. *)
Definition round_half_even (num den : Z) : Z :=
  let q := (num / den)%Z in
  match (2 * (num mod den) ?= den)%Z with
  | Lt => q
  | Gt => (q + 1)%Z
  | Eq => if Z.even q then q else (q + 1)%Z
  end.

(** [n / (d * 2^e)] as a fraction of integers. *)
Definition scaled (n d : positive) (e : Z) : Z * Z :=
  if (0 <=? e)%Z then (Zpos n, Zpos d * 2 ^ e)%Z
  else (Zpos n * 2 ^ (- e), Zpos d)%Z.

(** The integer [l] with [2^l <= n / d < 2^(l+1)]. *)
Definition ilog2 (n d : positive) : Z :=
  let l := (Z.log2 (Zpos n) - Z.log2 (Zpos d))%Z in
  let '(a, b) := scaled n d l in
  if (a <? b)%Z then (l - 1)%Z else l.

(** The double nearest to [n / d] (a tie to the even mantissa): the
    mantissa has 53 bits, fewer below [2^-1022]; past the largest double
    the result is an infinity. *)
Definition round_pos (s : bool) (n d : positive) : spec_float :=
  let e := Z.max (ilog2 n d - 52) (-1074) in
  let '(a, b) := scaled n d e in
  let m := round_half_even a b in
  let '(m, e) := if (m =? 2 ^ 53)%Z then (2 ^ 52, e + 1)%Z else (m, e) in
  match m with
  | Zpos p => if (e <=? 971)%Z then S754_finite s p e else S754_infinity s
  | _ => S754_zero s
  end.

(** The Number value for a rational. *)
Definition round_Q (q : Q) : float :=
  match Qnum q with
  | Z0 => 0%float
  | Zpos n => SF2Prim (round_pos false n (Qden q))
  | Zneg n => SF2Prim (round_pos true n (Qden q))
  end.

Definition of_Z (z : Z) : float := round_Q (inject_Z z).
Definition of_nat (n : nat) : float := of_Z (Z.of_nat n).

(** [n || 0]: [NaN] and the zeros are falsy. *)
Definition or_zero (n : float) : float :=
  if is_nan n || is_zero n then 0%float else n.

(** *** [Number(s)] on a string: [StringToNumber] *)

Definition digit_value (c : N) : Z := Z.of_N c - 48.

(** The value of a hexadecimal, octal or binary digit, if it is one. *)
Definition radix_digit (radix : Z) (c : N) : option Z :=
  let n := Z.of_N c in
  let v := if ((48 <=? n) && (n <=? 57))%Z then Some (n - 48)%Z
           else if ((97 <=? n) && (n <=? 102))%Z then Some (n - 87)%Z
           else if ((65 <=? n) && (n <=? 70))%Z then Some (n - 55)%Z
           else None in
  match v with
  | Some d => if (d <? radix)%Z then Some d else None
  | None => None
  end.

(** Reads the digits of [s] in [radix] onto the accumulator; [None] when a
    code unit is not a digit of that radix. *)
Fixpoint radix_digits (radix : Z) (acc : Z) (s : jsstring) : option Z :=
  match s with
  | [] => Some acc
  | c :: t =>
      match radix_digit radix c with
      | Some d => radix_digits radix (acc * radix + d)%Z t
      | None => None
      end
  end.

(** Splits the longest prefix of decimal digits off [s]: its value on top
    of [acc], how many digits were read, and the rest. *)
Fixpoint span_digits (acc : Z) (count : nat) (s : jsstring) : Z * nat * jsstring :=
  match s with
  | c :: t =>
      if Str.is_digit c then span_digits (acc * 10 + digit_value c)%Z (S count) t
      else (acc, count, s)
  | [] => (acc, count, s)
  end.

(** [[+-]] in front of a literal: the sign and the rest. *)
Definition split_sign (s : jsstring) : bool * jsstring :=
  match s with
  | c :: t =>
      if (c =? 45)%N then (true, t)
      else if (c =? 43)%N then (false, t)
      else (false, s)
  | [] => (false, s)
  end.

(** The exponent part [e[+-]digits] that may end a decimal literal: [Some
    0] when [s] is empty, [None] when [s] is anything else than an
    exponent part. *)
Definition exponent_part (s : jsstring) : option Z :=
  match s with
  | [] => Some 0%Z
  | c :: t =>
      if ((c =? 101) || (c =? 69))%N then
        let '(neg, t1) := split_sign t in
        match span_digits 0 0 t1 with
        | (_, O, _) => None
        | (e, _, []) => Some (if neg then (- e)%Z else e)
        | _ => None
        end
      else None
  end.

(** [StrUnsignedDecimalLiteral]: [Infinity], or digits, fraction and
    exponent; [None] when [s] is neither.  The value is rounded to the
    nearest double, as the engines round a numeral of any length. *)
Definition unsigned_decimal_literal (s : jsstring) : option float :=
  if decide (s = js "Infinity") then Some infinity
  else
    let '(ip, ni, s2) := span_digits 0 0 s in
    let '(m, nf, s3) :=
      match s2 with
      | c :: t => if (c =? 46)%N then span_digits ip 0 t else (ip, O, s2)
      | [] => (ip, O, s2)
      end in
    match ni, nf with
    | O, O => None
    | _, _ =>
        match exponent_part s3 with
        | Some e => Some (round_Q (inject_Z m * inject_Z 10 ^ (e - Z.of_nat nf))%Q)
        | None => None
        end
    end.

(** [StrDecimalLiteral]: an optional sign, which also a zero keeps. *)
Definition decimal_literal (s : jsstring) : float :=
  let '(neg, s1) := split_sign s in
  match unsigned_decimal_literal s1 with
  | Some v => if neg then (- v)%float else v
  | None => nan
  end.

(** [0x], [0o] and [0b] literals take no sign. *)
Definition radix_literal (radix : Z) (s : jsstring) : float :=
  match s with
  | [] => nan
  | _ => match radix_digits radix 0 s with
         | Some z => of_Z z
         | None => nan
         end
  end.

(** The radix a [0x], [0o] or [0b] prefix announces, and the digits after
    it. *)
Definition radix_prefix (s : jsstring) : option (Z * jsstring) :=
  match s with
  | c :: d :: t =>
      if (c =? 48)%N then
        if ((d =? 120) || (d =? 88))%N then Some (16%Z, t)
        else if ((d =? 111) || (d =? 79))%N then Some (8%Z, t)
        else if ((d =? 98) || (d =? 66))%N then Some (2%Z, t)
        else None
      else None
  | _ => None
  end.

Definition StringToNumber (s : jsstring) : float :=
  let t := Str.trim s in
  match t with
  | [] => 0%float
  | _ => match radix_prefix t with
         | Some (radix, digits) => radix_literal radix digits
         | None => decimal_literal t
         end
  end.

(** [ToIntegerOrInfinity] *)
Definition ToIntegerOrInfinity (x : float) : index :=
  match Prim2SF x with
  | S754_nan | S754_zero _ => Index 0
  | S754_infinity s => if s then NegInfinity else PosInfinity
  | S754_finite s m e =>
      let a := if (0 <=? e)%Z then (Zpos m * 2 ^ e)%Z else (Zpos m / 2 ^ (- e))%Z in
      Index (if s then (- a)%Z else a)
  end.

(** *** Printing *)

Definition pow10 (k : Z) : Q := (inject_Z 10 ^ k)%Q.

Definition Qltb (a b : Q) : bool := negb (Qle_bool b a).

(** The [n] with [10^(n-1) <= q < 10^n] for a positive [q]: counted up
    from 1 when [q >= 1], down from 0 otherwise.  A double lies between
    [10^-324] and [10^309]. *)
Fixpoint decimal_exponent_up (fuel : nat) (q : Q) (n : Z) : Z :=
  match fuel with
  | O => n
  | S f => if Qle_bool (pow10 n) q then decimal_exponent_up f q (n + 1) else n
  end.

Fixpoint decimal_exponent_down (fuel : nat) (q : Q) (n : Z) : Z :=
  match fuel with
  | O => n
  | S f => if Qle_bool (pow10 (n - 1)) q then n else decimal_exponent_down f q (n - 1)
  end.

Definition decimal_exponent (q : Q) : Z :=
  if Qle_bool 1 q then decimal_exponent_up 400 q 1 else decimal_exponent_down 400 q 0.

(** Of the two [k]-digit decimals [s * 10^(n-k)] around [q], one whose
    Number value is [v]: the nearer to [q] when both are, the even one in
    a tie. *)
Definition digits_candidate (v : float) (q : Q) (n k : Z) : option Z :=
  let scale := pow10 (n - k) in
  let lo := Qfloor (q / scale) in
  let hi := (lo + 1)%Z in
  let reads s := bool_decide (round_Q (inject_Z s * scale) = v) in
  let dl := (q - inject_Z lo * scale)%Q in
  let dh := (inject_Z hi * scale - q)%Q in
  match reads lo, reads hi with
  | true, true => Some (if Qltb dl dh then lo
                        else if Qltb dh dl then hi
                        else if Z.even lo then lo else hi)
  | true, false => Some lo
  | false, true => Some hi
  | false, false => None
  end.

(** The fewest digits [s] (with their number [k]) for which
    [s * 10^(n-k)] has the Number value [v]; 17 digits always do. *)
Fixpoint shortest_digits (fuel : nat) (v : float) (q : Q) (n k : Z) : Z * Z :=
  match fuel with
  | O => (round_half_even (Qnum (q / pow10 (n - k))) (Zpos (Qden (q / pow10 (n - k)))), k)
  | S f =>
      match digits_candidate v q n k with
      | Some s => (s, k)
      | None => shortest_digits f v q n (k + 1)
      end
  end.

Definition zeros (n : nat) : jsstring := replicate n 48%N.

Definition digits_of (z : Z) : jsstring := js (pretty z).

(** [Number::toString(x, 10)] *)
Definition toString_pos (v : float) : jsstring :=
  let q := to_Q v in
  let n0 := decimal_exponent q in
  let '(s0, k0) := shortest_digits 16 v q n0 1 in
  let '(s, n) := if (s0 =? 10 ^ k0)%Z then (10 ^ (k0 - 1), n0 + 1)%Z else (s0, n0) in
  let digits := digits_of s in
  let k := Z.of_nat (length digits) in
  if ((k <=? n) && (n <=? 21))%Z then digits ++ zeros (Z.to_nat (n - k))
  else if ((0 <? n) && (n <=? 21))%Z
  then take (Z.to_nat n) digits ++ js "." ++ drop (Z.to_nat n) digits
  else if ((-6 <? n) && (n <=? 0))%Z then js "0." ++ zeros (Z.to_nat (- n)) ++ digits
  else
    let e := (n - 1)%Z in
    let ex := (if (e <? 0)%Z then js "-" else js "+") ++ digits_of (Z.abs e) in
    if (k =? 1)%Z then digits ++ js "e" ++ ex
    else take 1 digits ++ js "." ++ drop 1 digits ++ js "e" ++ ex.

Definition toString (x : float) : jsstring :=
  match Prim2SF x with
  | S754_nan => js "NaN"
  | S754_zero _ => js "0"
  | S754_infinity s => if s then js "-Infinity" else js "Infinity"
  | S754_finite s _ _ => if s then js "-" ++ toString_pos (- x)%float else toString_pos x
  end.

(** [x.toFixed(f)]: the integer [n] nearest to [|x| * 10^f] (the larger of
    two), written with [f] digits after the point; [x] is the exact value
    of the double. *)
Definition toFixed (f : nat) (x : float) : jsstring :=
  match Prim2SF x with
  | S754_nan | S754_infinity _ => toString x
  | S754_zero _ | S754_finite _ _ _ =>
      let q := to_Q x in
      let neg := Qltb q 0 in
      let a := if neg then (- q)%Q else q in
      (if neg then js "-" else []) ++
      (if Qle_bool (pow10 21) a then toString (if neg then (- x)%float else x)
       else
         let n := Qfloor (a * pow10 (Z.of_nat f) + (1 # 2))%Q in
         let m := digits_of n in
         let m := if decide (length m ≤ f)%nat
                  then zeros (f + 1 - length m) ++ m else m in
         let k := length m in
         if decide (f = 0)%nat then m
         else take (k - f) m ++ js "." ++ drop (k - f) m)
  end.

End Num.

(** [Math.max(...vals)]: [-Infinity] of no value, [NaN] when a value is
    [NaN], and [+0] is greater than [-0]. *)
Module Math.

Definition is_neg_zero (x : float) : bool := is_zero x && get_sign x.
Definition is_pos_zero (x : float) : bool := is_zero x && negb (get_sign x).

Definition max_step (highest number : float) : float :=
  if is_nan highest || is_nan number then nan
  else if (is_pos_zero number && is_neg_zero highest) || (highest <? number)%float
  then number else highest.

Definition max (vals : list float) : float := fold_left max_step vals neg_infinity.

End Math.

(** ** Records: [tidyRow] and [parseCsvText] *)

(** A row as [Papa.parse] hands it over with [header: true] and no dynamic
    typing: column name to field text. *)
Abbreviation raw_row := (gmap jsstring jsstring).

Record record : Type := {
  dept : jsstring;
  code : jsstring;
  title : jsstring;
  award : jsstring;
  years : gmap jsstring float;
}.

(** [/\d{4}-\d{2}/] matched at the start of [k]. *)
Definition year_pattern_here (k : jsstring) : bool :=
  match k with
  | d1 :: d2 :: d3 :: d4 :: dash :: d5 :: d6 :: _ =>
      Str.is_digit d1 && Str.is_digit d2 && Str.is_digit d3 && Str.is_digit d4 &&
      (dash =? 45)%N && Str.is_digit d5 && Str.is_digit d6
  | _ => false
  end.

(** [/\d{4}-\d{2}/.test(k)]: the pattern carries no anchor, so the match
    may start at any position. *)
Fixpoint year_pattern_test (k : jsstring) : bool :=
  year_pattern_here k ||
  match k with
  | [] => false
  | _ :: t => year_pattern_test t
  end.

(** [Object.keys(row)] *)
Definition keys {V} (m : gmap jsstring V) : list jsstring := (map_to_list m).*1.

(** [Number(row[y] ?? 0) || 0] *)
Definition year_value (row : raw_row) (y : jsstring) : float :=
  Num.or_zero (match row !! y with
               | Some s => Num.StringToNumber s
               | None => 0%float
               end).

(** [(row[name] || "").trim()] *)
Definition text_field (row : raw_row) (name : jsstring) : jsstring :=
  Str.trim (default [] (row !! name)).

Definition tidyRow (row : raw_row) : record :=
  let ys := filter (λ k, year_pattern_test k = true) (keys row) in
  let numericYears : gmap jsstring float :=
    list_to_map ((λ y, (y, year_value row y)) <$> ys) in
  {| dept := text_field row (js "DEPT");
     code := text_field row (js "STATE CONTROL NUMBER");
     title := text_field row (js "PROGRAM TITLE");
     award := text_field row (js "AWARD TYPE");
     years := numericYears |}.

(** *** [Papa.parse(text, { header: true, skipEmptyLines: true })]

    The parser is a library of its own; this is its documented behaviour on
    the text the export writes: comma-separated fields, lines ended by a
    line feed, a quoted field closed by a quote that a comma, a line feed
    or the end of the text follows.  A field that opens with a quote runs
    to the closing quote, a doubled quote inside it is one quote; the first
    line names the columns, and a data line gives the columns their fields
    in order, the fields beyond the last column being set aside.  Column
    names are taken to be distinct. *)
Module Papa.

Definition quote : N := 34.
Definition comma : N := 44.
Definition newline : N := 10.

Definition push_char (c : N) (recs : list (list jsstring)) : list (list jsstring) :=
  match recs with
  | (f :: fs) :: rs => ((c :: f) :: fs) :: rs
  | [] :: rs => [[c]] :: rs
  | [] => [[[c]]]
  end.

Definition new_field (recs : list (list jsstring)) : list (list jsstring) :=
  match recs with
  | fs :: rs => ([] :: fs) :: rs
  | [] => [[[]]]
  end.

Definition new_record (recs : list (list jsstring)) : list (list jsstring) :=
  [[]] :: recs.

(** [start]: no code unit of the current field has been read; [inq]: the
    scan is inside a quoted field. *)
Fixpoint scan (start inq : bool) (s : jsstring) : list (list jsstring) :=
  match s with
  | [] => [[[]]]
  | c :: t =>
      if inq then
        if (c =? quote)%N then
          match t with
          | d :: t' =>
              if (d =? quote)%N then push_char quote (scan false true t')
              else scan false false t
          | [] => scan false false t
          end
        else push_char c (scan false true t)
      else if (c =? comma)%N then new_field (scan true false t)
      else if (c =? newline)%N then new_record (scan true false t)
      else if start && (c =? quote)%N then scan false true t
      else push_char c (scan false false t)
  end.

Definition is_empty_line (fields : list jsstring) : bool :=
  match fields with
  | [[]] | [] => true
  | _ => false
  end.

Definition parse (text : jsstring) : list raw_row :=
  match filter (λ fs, is_empty_line fs = false) (scan true false text) with
  | [] => []
  | header :: lines => (λ fields, list_to_map (zip header fields)) <$> lines
  end.

End Papa.

Definition parseCsvText (text : jsstring) : list record :=
  tidyRow <$> Papa.parse text.

(** ** The deactivation assessor *)

Definition REC_MIN_TOTAL_5Y : float := 15%float.
Definition REC_MIN_AVG_5Y : float := 3%float.
Definition REC_MIN_PEAK_5Y : float := 3%float.

Record assessment : Type := { flag : bool; reason : jsstring }.

(** [years[y] || 0] *)
Definition year_or_zero (ys : gmap jsstring float) (y : jsstring) : float :=
  match ys !! y with
  | Some v => Num.or_zero v
  | None => 0%float
  end.

(** [years[y] ?? 0] *)
Definition year_or_default (ys : gmap jsstring float) (y : jsstring) : float :=
  default 0%float (ys !! y).

(** The locals of [assessRecDeact] past its early return, for the non-empty
    [last5 = y0 :: rest]. *)
Record deact_stats : Type := {
  vals : list float;
  total5 : float;
  avg5 : float;
  zeros : nat;
  peak : float;
}.

Definition last5_stats (row : record) (y0 : jsstring) (rest : list jsstring) : deact_stats :=
  let last5 := y0 :: rest in
  let vals := (λ y, year_or_zero (years row) y) <$> last5 in
  let total5 := Arr.reduce (λ a b, (a + b)%float) 0%float vals in
  {| vals := vals;
     total5 := total5;
     avg5 := (total5 / Num.of_nat (length last5))%float;
     zeros := length (filter (λ v, (v =? 0)%float = true) vals);
     peak := Math.max vals |}.

Definition assessRecDeact (row : record) (allYears : list jsstring) : assessment :=
  match Arr.slice_from (-5)%Z allYears with
  | [] => {| flag := false; reason := js "No years" |}
  | y0 :: rest =>
      let st := last5_stats row y0 rest in
      let lowOverall :=
        (total5 st <? REC_MIN_TOTAL_5Y)%float && (avg5 st <? REC_MIN_AVG_5Y)%float in
      let manyZeros := bool_decide (3 ≤ zeros st)%nat in
      let noPeak := (peak st <? REC_MIN_PEAK_5Y)%float in
      if lowOverall || manyZeros || noPeak then
        let reasons :=
          (if lowOverall
           then [js "5y total " ++ Num.toString (total5 st) ++ js " & avg " ++
                 Num.toFixed 1 (avg5 st) ++ js " (<" ++ Num.toString REC_MIN_TOTAL_5Y ++
                 js ", <" ++ Num.toString REC_MIN_AVG_5Y ++ js ")"]
           else []) ++
          (if manyZeros then [js "zeros " ++ js (pretty (zeros st)) ++ js "/5"] else []) ++
          (if noPeak
           then [js "max/year " ++ Num.toString (peak st) ++ js " (<" ++
                 Num.toString REC_MIN_PEAK_5Y ++ js ")"]
           else []) in
        {| flag := true; reason := Str.join (js "; ") reasons |}
      else
        {| flag := false;
           reason := js "5y total " ++ Num.toString (total5 st) ++ js ", avg " ++
                     Num.toFixed 1 (avg5 st) ++ js ", max " ++ Num.toString (peak st) ++
                     js ", zeros " ++ js (pretty (zeros st)) |}
  end.

(** ** The year index and the visible range *)

(** [years.add(y)] on the insertion-ordered [Set]. *)
Definition set_add (acc : list jsstring) (y : jsstring) : list jsstring :=
  if decide (y ∈ acc) then acc else acc ++ [y].

Definition allYears (rows : list record) : list jsstring :=
  let years_set :=
    fold_left (λ acc r, fold_left set_add (keys (years r)) acc) rows [] in
  Arr.sort Str.ltb years_set.

(** A range end is [null] until it is first set; [!label] holds of [null]
    and of the empty string. *)
Definition truthy_label (o : option jsstring) : bool :=
  match o with
  | Some (_ :: _) => true
  | _ => false
  end.

Definition visibleYears (allYears : list jsstring) (rangeStart rangeEnd : option jsstring)
  : list jsstring :=
  if (length allYears =? 0)%nat || negb (truthy_label rangeStart) || negb (truthy_label rangeEnd)
  then allYears
  else
    let i0 := Arr.indexOf (Some <$> allYears) rangeStart in
    let i1 := Arr.indexOf (Some <$> allYears) rangeEnd in
    if ((i0 =? -1) || (i1 =? -1))%Z then allYears
    else
      let '(lo, hi) := if (i0 <=? i1)%Z then (i0, i1) else (i1, i0) in
      Arr.slice lo (hi + 1)%Z allYears.

(** ** The query pipeline: [filtered] *)

(** The parameters the user interface holds as component state. *)
Module Params.
Record t : Type := {
  dept : jsstring;
  award : jsstring;
  q : jsstring;
  topN : jsstring;
  sortKey : jsstring;
  sortDir : jsstring;
  recDeactOnly : bool;
}.
End Params.

(** [{ ...r, totalRange, avgPerYear, recDeact, recDeactReason }] *)
Record view_row : Type := {
  base : record;
  totalRange : float;
  avgPerYear : float;
  recDeact : bool;
  recDeactReason : jsstring;
}.

(** The callback of [out.map] that attaches the computed columns. *)
Definition attach (visibleYears allYears : list jsstring) (r : record) : view_row :=
  let yearCount := Nat.max 1 (length visibleYears) in
  let totalRange :=
    Arr.reduce (λ sum y, (sum + year_or_zero (years r) y)%float) 0%float visibleYears in
  let avgPerYear := (totalRange / Num.of_nat yearCount)%float in
  let deact := assessRecDeact r allYears in
  {| base := r;
     totalRange := totalRange;
     avgPerYear := avgPerYear;
     recDeact := flag deact;
     recDeactReason := reason deact |}.

Definition getVal (sortKey : jsstring) (row : view_row) : float :=
  if decide (sortKey = js "totalRange") then totalRange row
  else if decide (sortKey = js "avgPerYear") then avgPerYear row
  else year_or_default (years (base row)) sortKey.

(** The comparator handed to [out.sort]. *)
Definition compare_rows (sortKey sortDir : jsstring) (a b : view_row) : float :=
  let av := getVal sortKey a in
  let bv := getVal sortKey b in
  if decide (sortDir = js "asc") then (av - bv)%float else (bv - av)%float.

(** [out.sort(compare)]: an element goes in front of another when the
    comparator is negative on the pair; [NaN] counts as 0. *)
Definition sort_rows (sortKey sortDir : jsstring) (out : list view_row) : list view_row :=
  Arr.sort (λ a b, (compare_rows sortKey sortDir a b <? 0)%float) out.

Section Pipeline.

(** [String.prototype.toLowerCase], the case mapping of the engine. *)
Variable toLowerCase : jsstring → jsstring.

Definition matches_keyword (needle : jsstring) (r : record) : bool :=
  Str.includes needle (toLowerCase (title r)) ||
  Str.includes needle (toLowerCase (award r)) ||
  Str.includes needle (toLowerCase (code r)).

(** The rows as they stand before [out.sort]: the three filters, the
    computed columns, the flagged-only toggle.  Every row is an object, so
    the opening [rows.filter(Boolean)] keeps them all. *)
Definition before_sort (p : Params.t) (rows : list record)
    (visibleYears allYears : list jsstring) : list view_row :=
  let out := rows in
  let out := if decide (Params.dept p = js "All") then out
             else filter (λ r, dept r = Params.dept p) out in
  let out := if decide (Params.award p = js "All") then out
             else filter (λ r, award r = Params.award p) out in
  let out := if decide (Str.trim (Params.q p) = []) then out
             else let needle := toLowerCase (Params.q p) in
                  filter (λ r, matches_keyword needle r = true) out in
  let out := attach visibleYears allYears <$> out in
  if Params.recDeactOnly p then filter (λ r, recDeact r = true) out else out.

Definition filtered (p : Params.t) (rows : list record)
    (visibleYears allYears : list jsstring) : list view_row :=
  let out := sort_rows (Params.sortKey p) (Params.sortDir p)
               (before_sort p rows visibleYears allYears) in
  let n := if decide (Params.topN p = js "All") then Index (Z.of_nat (length out))
           else Num.ToIntegerOrInfinity (Num.StringToNumber (Params.topN p)) in
  Arr.slice 0%Z n out.

End Pipeline.

(** ** The export: the text [downloadFilteredCsv] puts in the download *)

Definition quoted (s : jsstring) : jsstring :=
  [Papa.quote] ++ Str.replaceAll Papa.quote [Papa.quote; Papa.quote] s ++ [Papa.quote].

Definition csv_header (visibleYears : list jsstring) : list jsstring :=
  [js "DEPT"; js "STATE CONTROL NUMBER"; js "PROGRAM TITLE"; js "AWARD TYPE";
   js "TOTAL (Range)"; js "AVG / yr"; js "Rec Deact (last 5y)"] ++ visibleYears.

Definition csv_row (visibleYears : list jsstring) (r : view_row) : list jsstring :=
  let ys := (λ y, year_or_default (years (base r)) y) <$> visibleYears in
  [dept (base r);
   code (base r);
   quoted (title (base r));
   quoted (award (base r));
   Num.toString (totalRange r);
   Num.toFixed 2 (avgPerYear r);
   if recDeact r then js "Yes" else js "No"] ++ (Num.toString <$> ys).

Definition downloadFilteredCsv (filtered : list view_row) (visibleYears : list jsstring)
  : jsstring :=
  let lines :=
    Str.join (js ",") (csv_header visibleYears) ::
    ((λ r, Str.join (js ",") (csv_row visibleYears r)) <$> filtered) in
  Str.join [Papa.newline] lines.

(** ** The rest of the component: drop-down lists and the default range *)

(** [uniq(arr)]: [Array.from(new Set(arr.filter(Boolean)))]; of strings
    only the empty one is falsy. *)
Definition uniq (arr : list jsstring) : list jsstring :=
  fold_left set_add (filter (λ s, s ≠ []) arr) [].

(** The entries of the department and award drop-downs. *)
Definition allDepts (rows : list record) : list jsstring :=
  js "All" :: Arr.sort Str.ltb (uniq (dept <$> rows)).

Definition allAwards (rows : list record) : list jsstring :=
  js "All" :: Arr.sort Str.ltb (uniq (award <$> rows)).

(** The range state [(rangeStart, rangeEnd)]; [None] is [null]. *)
Abbreviation range := (option jsstring * option jsstring)%type.




(** The key of the table row at position [i]:
    [r.dept + "-" + r.code + "-" + i]. *)
Definition row_key (r : view_row) (i : nat) : jsstring :=
  dept (base r) ++ js "-" ++ code (base r) ++ js "-" ++ js (pretty i).

(** The keys of [filtered.map((r, i) => ...)]. *)
Definition row_keys (out : list view_row) : list jsstring :=
  imap (λ i r, row_key r i) out.

(** ** Vocabulary of the specification *)

(** The sum a [reduce] with [+] gives: the numbers added in binary64
    arithmetic from left to right, starting from 0. *)
Definition sum64 (l : list float) : float := fold_left PrimFloat.add l 0%float.

(** The sum of rationals. *)
Definition Qsum (l : list Q) : Q := foldr Qplus 0%Q l.

(** The same number: the same double, or two zeros (which [===] does not
    tell apart). *)
Definition same_number (x y : float) : Prop :=
  x = y ∨ (is_zero x = true ∧ is_zero y = true).

(** [m] is the greatest element of [l]. *)
Definition is_max (m : float) (l : list float) : Prop :=
  m ∈ l ∧ ∀ v : float, v ∈ l → (v <=? m)%float = true.

(** The count the record holds for a label, as the pipeline reads it: 0
    when the record has no entry for the label, and when the entry is
    [NaN] or a zero. *)
Definition count_of (row : record) (y : jsstring) : float :=
  match years row !! y with
  | Some v => if is_nan v || is_zero v then 0%float else v
  | None => 0%float
  end.

(** How many of the counts are zero. *)
Definition count_zeros (l : list float) : nat :=
  length (filter (λ v, (v =? 0)%float = true) l).

(** The last [n] labels of an index, all of them when there are fewer. *)
Definition last_labels (n : nat) (l : list jsstring) : list jsstring :=
  drop (length l - n) l.

(** A range end names a label of the index ([null] names none). *)
Definition label_present (idx : list jsstring) (o : option jsstring) : Prop :=
  ∃ s, o = Some s ∧ s ∈ idx.

(** Each label stands before the next one in the order of the code units. *)
Definition ascending (l : list jsstring) : Prop :=
  Sorted (λ a b, Str.ltb a b = true) l.

(** The counts a record holds. *)
Definition values_of (r : record) : list float := (map_to_list (years r)).*2.

(** Parameters that filter nothing: every department and award, no keyword,
    all rows, by total, descending. *)
Definition default_params : Params.t :=
  {| Params.dept := js "All"; Params.award := js "All"; Params.q := [];
     Params.topN := js "All"; Params.sortKey := js "totalRange";
     Params.sortDir := js "desc"; Params.recDeactOnly := false |}.

(** A column name contains four digits, a dash and two digits somewhere. *)
Definition contains_year_label (k : jsstring) : Prop :=
  ∃ (pre post : jsstring) (d1 d2 d3 d4 d5 d6 : N),
    k = pre ++ d1 :: d2 :: d3 :: d4 :: 45%N :: d5 :: d6 :: post ∧
    Str.is_digit d1 = true ∧ Str.is_digit d2 = true ∧ Str.is_digit d3 = true ∧
    Str.is_digit d4 = true ∧ Str.is_digit d5 = true ∧ Str.is_digit d6 = true.

(** The number is a non-negative integer. *)
Definition nonneg_integer (v : float) : Prop :=
  ∃ z : Z, (0 ≤ z)%Z ∧ is_finite v = true ∧ (Num.to_Q v == inject_Z z)%Q.

(** The number an unsigned decimal numeral denotes. *)
Fixpoint decimal_value_from (acc : Z) (s : jsstring) : Z :=
  match s with
  | [] => acc
  | c :: t => decimal_value_from (acc * 10 + Num.digit_value c) t
  end.

Definition decimal_value (s : jsstring) : Z := decimal_value_from 0 s.

(** The order of the doubles that are not [NaN], as an order of triples of
    integers: the class and sign first, then the exponent, then the
    mantissa. *)
Definition SFkey (x : spec_float) : Z * Z * Z :=
  match x with
  | S754_nan | S754_zero _ => (0, 0, 0)%Z
  | S754_infinity s => (if s then -2 else 2, 0, 0)%Z
  | S754_finite s m e => if s then (-1, - e, - Zpos m)%Z else (1, e, Zpos m)%Z
  end.

Definition key_lt (a b : Z * Z * Z) : Prop :=
  (a.1.1 < b.1.1 ∨
   (a.1.1 = b.1.1 ∧ (a.1.2 < b.1.2 ∨ (a.1.2 = b.1.2 ∧ a.2 < b.2))))%Z.

Definition fkey (x : float) : Z * Z * Z := SFkey (Prim2SF x).

(** [toLowerCase] on text of ASCII characters, where it changes [A] to [Z]
    only: the case mapping the examples are run with. *)
Definition lower_ascii (s : jsstring) : jsstring :=
  (λ c, if ((65 <=? c) && (c <=? 90))%N then (c + 32)%N else c) <$> s.

(** The text of the export of the whole record set under the full range. *)
Definition export_all (toLowerCase : jsstring → jsstring) (rows : list record) : jsstring :=
  downloadFilteredCsv
    (filtered toLowerCase default_params rows (allYears rows) (allYears rows))
    (allYears rows).

(** The scenario of the specification: one record with a single completion
    in five years, and the year index of exactly those five labels. *)
Definition scenario_years : list jsstring :=
  [js "2019-20"; js "2020-21"; js "2021-22"; js "2022-23"; js "2023-24"].

Definition scenario_record : record :=
  {| dept := []; code := []; title := []; award := [];
     years := list_to_map [(js "2019-20", 0%float); (js "2020-21", 0%float);
                           (js "2021-22", 1%float); (js "2022-23", 0%float);
                           (js "2023-24", 0%float)] |}.

(** A second record, with counts in years the scenario does not have. *)
Definition other_record : record :=
  {| dept := js "Arts"; code := js "A1"; title := js "Painting"; award := js "AA";
     years := list_to_map [(js "2017-18", 4%float); (js "2021-22", 2%float)] |}.

(** A record whose department name holds a comma, and the same record under
    a department name without one. *)
Definition media_record : record :=
  {| dept := js "Arts, Media"; code := js "A1"; title := js "Glass"; award := js "AA";
     years := list_to_map [(js "2022-23", 12%float); (js "2023-24", 7%float)] |}.

Definition arts_record : record :=
  {| dept := js "Arts"; code := js "A1"; title := js "Glass, stained"; award := js "AA";
     years := list_to_map [(js "2022-23", 12%float); (js "2023-24", 7%float)] |}.

(** A record with fractional counts, as the cells [2.6], [5.4], [0.7],
    [6.1] and [0.2] give them. *)
Definition fraction_record : record :=
  {| dept := js "Arts"; code := js "A2"; title := js "Weaving"; award := js "AS";
     years := list_to_map [(js "2019-20", 2.6%float); (js "2020-21", 5.4%float);
                           (js "2021-22", 0.7%float); (js "2022-23", 6.1%float);
                           (js "2023-24", 0.2%float)] |}.

(** A record with one count of [2^53] and two counts of 1. *)
Definition large_record : record :=
  {| dept := js "Arts"; code := js "A3"; title := js "Print"; award := js "AS";
     years := list_to_map [(js "2019-20", 9007199254740992%float);
                           (js "2020-21", 1%float); (js "2021-22", 1%float)] |}.

(** A record whose counts cancel: [2^60], 20 and [-2^60] over an index of
    three labels. *)
Definition cancel_years : list jsstring := [js "2019-20"; js "2020-21"; js "2021-22"].

Definition cancel_record : record :=
  {| dept := js "Arts"; code := js "A4"; title := js "Film"; award := js "AS";
     years := list_to_map [(js "2019-20", 1152921504606846976%float);
                           (js "2020-21", 20%float);
                           (js "2021-22", (-1152921504606846976)%float)] |}.

(** A record passes the department, award and keyword filters of [p]. *)
Definition passes (toLowerCase : jsstring → jsstring) (p : Params.t) (r : record) : Prop :=
  (Params.dept p = js "All" ∨ dept r = Params.dept p) ∧
  (Params.award p = js "All" ∨ award r = Params.award p) ∧
  (Str.trim (Params.q p) = [] ∨
   matches_keyword toLowerCase (toLowerCase (Params.q p)) r = true).

(** The parameters [p] with another top-N choice. *)
Definition with_topN (n : jsstring) (p : Params.t) : Params.t :=
  {| Params.dept := Params.dept p; Params.award := Params.award p; Params.q := Params.q p;
     Params.topN := n; Params.sortKey := Params.sortKey p;
     Params.sortDir := Params.sortDir p; Params.recDeactOnly := Params.recDeactOnly p |}.

(** The four columns the normalizer reads by name. *)
Definition named_columns : list jsstring :=
  [js "DEPT"; js "STATE CONTROL NUMBER"; js "PROGRAM TITLE"; js "AWARD TYPE"].

(** The labels in strict ascending order, each before all the later
    ones. *)
Definition strictly_ascending (l : list jsstring) : Prop :=
  StronglySorted (λ a b, Str.ltb a b = true) l.

#[global] Instance same_number_dec (x y : float) : Decision (same_number x y) :=
  decide (x = y ∨ (is_zero x = true ∧ is_zero y = true)).

(** The part of [s] behind its last dash; [cur] is the part behind the last
    dash read so far. *)
Fixpoint after_last_dash (cur s : jsstring) : jsstring :=
  match s with
  | [] => cur
  | c :: t => if (c =? 45)%N then after_last_dash t t else after_last_dash cur t
  end.

(** The sum of integers. *)
Definition Zsum (l : list Z) : Z := foldr Z.add 0%Z l.

(** The integer counts of a mapping along a list of labels, 0 where the
    mapping has no entry. *)
Definition counts_along (counts : gmap jsstring Z) (labels : list jsstring) : list Z :=
  (λ y, default 0%Z (counts !! y)) <$> labels.

(** * Properties *)

(** ** Facts about the doubles *)

Lemma Prim2SF_zero : Prim2SF 0%float = S754_zero false.
Proof. reflexivity. Qed.

Lemma SFcompare_refl (x : spec_float) : x ≠ S754_nan → SFcompare x x = Some Eq.
Proof.
  destruct x as [s|s| |s m e]; simpl; try done; destruct s; try done;
    intros _; rewrite Z.compare_refl, Pos.compare_cont_refl; done.
Qed.

Lemma is_nan_spec (x : float) : is_nan x = true ↔ Prim2SF x = S754_nan.
Proof.
  unfold is_nan. rewrite FloatAxioms.eqb_spec. unfold SFeqb.
  destruct (Prim2SF x) as [s|s| |s m e] eqn:Hx;
    try (rewrite SFcompare_refl by done); simpl; split; done.
Qed.

Lemma is_nan_false (x : float) : is_nan x = false ↔ Prim2SF x ≠ S754_nan.
Proof.
  rewrite <- is_nan_spec. destruct (is_nan x); split; congruence.
Qed.

Lemma is_zero_spec (x : float) : is_zero x = true ↔ ∃ s, Prim2SF x = S754_zero s.
Proof.
  unfold is_zero. rewrite FloatAxioms.eqb_spec. change (Prim2SF zero) with (S754_zero false).
  destruct (Prim2SF x) as [s|s| |s m e]; unfold SFeqb; simpl.
  - split; [by exists s|done].
  - split; [by destruct s|by intros [? ?]].
  - split; [done|by intros [? ?]].
  - split; [by destruct s|by intros [? ?]].
Qed.

(** [n || 0] is never [NaN]. *)
Lemma or_zero_not_nan (n : float) : is_nan (Num.or_zero n) = false.
Proof.
  unfold Num.or_zero. destruct (is_nan n) eqn:Hn; simpl; [done|].
  by destruct (is_zero n).
Qed.

Lemma or_zero_nan (n : float) : is_nan n = true → Num.or_zero n = 0%float.
Proof. unfold Num.or_zero. by intros ->. Qed.

(** *** The order *)

Lemma SFltb_key (x y : spec_float) :
  x ≠ S754_nan → y ≠ S754_nan →
  SFltb x y = true ↔ key_lt (SFkey x) (SFkey y).
Proof.
  intros Hx Hy. unfold SFltb, key_lt.
  destruct x as [s|s| |s m e], y as [s'|s'| |s' m' e']; try done;
    try destruct s; try destruct s'; simpl; try (split; [done|lia]); try (split; [lia|done]);
    try (split; [intros _; lia|done]).
  - change (Pos.compare_cont Eq m m') with (m ?= m')%positive.
    destruct (Z.compare_spec e e'), (Pos.compare_spec m m');
      split; intros; try done; try lia.
  - change (Pos.compare_cont Eq m m') with (m ?= m')%positive.
    destruct (Z.compare_spec e e'), (Pos.compare_spec m m');
      split; intros; try done; try lia.
Qed.

Lemma SFleb_key (x y : spec_float) :
  x ≠ S754_nan → y ≠ S754_nan →
  SFleb x y = true ↔ ¬ key_lt (SFkey y) (SFkey x).
Proof.
  intros Hx Hy. unfold SFleb, key_lt.
  destruct x as [s|s| |s m e], y as [s'|s'| |s' m' e']; try done;
    try destruct s; try destruct s'; simpl; try (split; [intros _; lia|done]);
    try (split; [done|lia]).
  - change (Pos.compare_cont Eq m m') with (m ?= m')%positive.
    destruct (Z.compare_spec e e'), (Pos.compare_spec m m');
      split; intros; try done; try lia.
  - change (Pos.compare_cont Eq m m') with (m ?= m')%positive.
    destruct (Z.compare_spec e e'), (Pos.compare_spec m m');
      split; intros; try done; try lia.
Qed.

Lemma ltb_key (x y : float) :
  is_nan x = false → is_nan y = false →
  (x <? y)%float = true ↔ key_lt (fkey x) (fkey y).
Proof.
  intros Hx%is_nan_false Hy%is_nan_false. rewrite FloatAxioms.ltb_spec. by apply SFltb_key.
Qed.

Lemma leb_key (x y : float) :
  is_nan x = false → is_nan y = false →
  (x <=? y)%float = true ↔ ¬ key_lt (fkey y) (fkey x).
Proof.
  intros Hx%is_nan_false Hy%is_nan_false. rewrite FloatAxioms.leb_spec. by apply SFleb_key.
Qed.

Lemma ltb_nan_l (x y : float) : is_nan x = true → (x <? y)%float = false.
Proof. intros Hx%is_nan_spec. rewrite FloatAxioms.ltb_spec, Hx. done. Qed.

(** Numbers that compare equal both ways are below the same numbers. *)
Lemma ltb_same_key (x y c : float) :
  is_nan x = false → is_nan y = false →
  (x <=? y)%float = true → (y <=? x)%float = true →
  (x <? c)%float = (y <? c)%float.
Proof.
  intros Hx Hy Hxy Hyx.
  destruct (is_nan c) eqn:Hc.
  { apply is_nan_spec in Hc. rewrite !FloatAxioms.ltb_spec, Hc.
    unfold SFltb. by destruct (Prim2SF x), (Prim2SF y). }
  apply (proj1 (leb_key x y Hx Hy)) in Hxy. apply (proj1 (leb_key y x Hy Hx)) in Hyx.
  pose proof (ltb_key x c Hx Hc) as H1. pose proof (ltb_key y c Hy Hc) as H2.
  destruct (fkey x) as [[a1 a2] a3], (fkey y) as [[b1 b2] b3], (fkey c) as [[c1 c2] c3].
  unfold key_lt in *. simpl in *.
  destruct (x <? c)%float, (y <? c)%float; try done.
  - exfalso. assert (Ht : true = true) by done. apply H1 in Ht.
    assert (¬ (b1 < c1 ∨ b1 = c1 ∧ (b2 < c2 ∨ b2 = c2 ∧ b3 < c3))%Z) by (intros ?%H2; done).
    lia.
  - exfalso. assert (Ht : true = true) by done. apply H2 in Ht.
    assert (¬ (a1 < c1 ∨ a1 = c1 ∧ (a2 < c2 ∨ a2 = c2 ∧ a3 < c3))%Z) by (intros ?%H1; done).
    lia.
Qed.

(** *** [Math.max] *)

Lemma max_step_spec (h x : float) :
  is_nan h = false → is_nan x = false →
  let r := Math.max_step h x in
  (r = h ∨ r = x) ∧ is_nan r = false ∧ (h <=? r)%float = true ∧ (x <=? r)%float = true.
Proof.
  intros Hh Hx r. subst r. unfold Math.max_step. rewrite Hh, Hx. simpl.
  pose proof (leb_key h h Hh Hh) as Lhh. pose proof (leb_key x x Hx Hx) as Lxx.
  pose proof (leb_key h x Hh Hx) as Lhx. pose proof (leb_key x h Hx Hh) as Lxh.
  pose proof (ltb_key h x Hh Hx) as Thx.
  destruct (Math.is_pos_zero x && Math.is_neg_zero h) eqn:Hz; simpl.
  - apply andb_true_iff in Hz as [Hz1 Hz2].
    unfold Math.is_pos_zero in Hz1. unfold Math.is_neg_zero in Hz2.
    apply andb_true_iff in Hz1 as [[s1 Hz1]%is_zero_spec _].
    apply andb_true_iff in Hz2 as [[s2 Hz2]%is_zero_spec _].
    split_and!; [by right|done| |].
    + apply Lhx. unfold fkey, key_lt. rewrite Hz1, Hz2. simpl. lia.
    + apply Lxx. unfold fkey, key_lt. destruct (SFkey _) as [[? ?] ?]. simpl. lia.
  - destruct (h <? x)%float eqn:Hlt.
    + split_and!; [by right|done| |].
      * apply Lhx. pose proof (proj1 Thx eq_refl) as Hk. revert Hk. unfold key_lt.
        destruct (fkey h) as [[? ?] ?], (fkey x) as [[? ?] ?]. simpl. lia.
      * apply Lxx. unfold key_lt. destruct (fkey x) as [[? ?] ?]. simpl. lia.
    + split_and!; [by left|done| |].
      * apply Lhh. unfold key_lt. destruct (fkey h) as [[? ?] ?]. simpl. lia.
      * apply Lxh. intros Hk. apply (proj2 Thx) in Hk. done.
Qed.

Lemma leb_trans (x y z : float) :
  is_nan x = false → is_nan y = false → is_nan z = false →
  (x <=? y)%float = true → (y <=? z)%float = true → (x <=? z)%float = true.
Proof.
  intros Hx Hy Hz Hxy Hyz.
  apply (proj1 (leb_key x y Hx Hy)) in Hxy. apply (proj1 (leb_key y z Hy Hz)) in Hyz.
  apply (leb_key x z Hx Hz). revert Hxy Hyz. unfold key_lt.
  destruct (fkey x) as [[? ?] ?], (fkey y) as [[? ?] ?], (fkey z) as [[? ?] ?]. simpl. lia.
Qed.

Lemma max_fold_spec (l : list float) (h : float) :
  is_nan h = false → Forall (λ v, is_nan v = false) l →
  let r := fold_left Math.max_step l h in
  (r = h ∨ r ∈ l) ∧ is_nan r = false ∧ (h <=? r)%float = true ∧
  ∀ v, v ∈ l → (v <=? r)%float = true.
Proof.
  revert h. induction l as [|x l IH]; intros h Hh Hl; simpl.
  - split_and!; [by left|done| |by intros v ?%elem_of_nil].
    apply (leb_key h h Hh Hh). unfold key_lt. destruct (fkey h) as [[? ?] ?]. simpl. lia.
  - apply Forall_cons in Hl as [Hx Hl].
    destruct (max_step_spec h x Hh Hx) as (Hr & Hn & Hhr & Hxr).
    destruct (IH (Math.max_step h x) Hn Hl) as (Hr' & Hn' & Hle & Hall).
    split_and!.
    + destruct Hr' as [->|Hin]; [|by right; right].
      destruct Hr as [->| ->]; [by left|by right; left].
    + done.
    + by apply (leb_trans h (Math.max_step h x) _).
    + intros v [->|Hv]%elem_of_cons; [|by apply Hall].
      by apply (leb_trans x (Math.max_step h x) _).
Qed.

Lemma leb_neg_infinity (v : float) : (v <=? neg_infinity)%float = true → v = neg_infinity.
Proof.
  rewrite FloatAxioms.leb_spec. change (Prim2SF neg_infinity) with (S754_infinity true).
  intros H. apply Prim2SF_inj. change (Prim2SF neg_infinity) with (S754_infinity true).
  destruct (Prim2SF v) as [s|s| |s m e]; unfold SFleb in H; simpl in H; try done;
    by destruct s.
Qed.

(** [Math.max] of numbers none of which is [NaN] is their greatest. *)
Lemma max_is_max (l : list float) :
  l ≠ [] → Forall (λ v, is_nan v = false) l → is_max (Math.max l) l.
Proof.
  intros Hne Hl. unfold Math.max.
  destruct (max_fold_spec l neg_infinity eq_refl Hl) as (Hr & _ & _ & Hall).
  split; [|done].
  destruct Hr as [Hr|Hr]; [|done].
  destruct l as [|x l]; [done|].
  assert (Hx : (x <=? fold_left Math.max_step (x :: l) neg_infinity)%float = true)
    by (apply Hall; by left).
  rewrite Hr in Hx. apply leb_neg_infinity in Hx. rewrite Hr, <- Hx. by left.
Qed.

(** *** Sums up to the sign of a zero *)

Lemma same_number_refl (x : float) : same_number x x.
Proof. by left. Qed.

Lemma same_number_trans (x y z : float) :
  same_number x y → same_number y z → same_number x z.
Proof.
  intros [->|[Hx Hy]] [->|[Hy' Hz]]; [by left|by right|by right|by right].
Qed.

Lemma add_zero_r (x : float) : same_number (x + 0)%float x.
Proof.
  destruct (Prim2SF x) as [s|s| |s m e] eqn:Hx.
  - right. split; [|apply is_zero_spec; by eexists].
    apply is_zero_spec. rewrite add_spec, Hx, Prim2SF_zero.
    destruct s; by eexists.
  - left. apply Prim2SF_inj. by rewrite add_spec, Hx, Prim2SF_zero.
  - left. apply Prim2SF_inj. by rewrite add_spec, Hx, Prim2SF_zero.
  - left. apply Prim2SF_inj. by rewrite add_spec, Hx, Prim2SF_zero.
Qed.

Lemma add_same_number (x x' y : float) :
  same_number x x' → same_number (x + y)%float (x' + y)%float.
Proof.
  intros [->|[[s Hx]%is_zero_spec [s' Hx']%is_zero_spec]]; [by left|].
  destruct (Prim2SF y) as [t|t| |t m e] eqn:Hy.
  - right. split; apply is_zero_spec; rewrite add_spec, Hy.
    + rewrite Hx. destruct s, t; by eexists.
    + rewrite Hx'. destruct s', t; by eexists.
  - left. apply Prim2SF_inj. by rewrite !add_spec, Hx, Hx', Hy.
  - left. apply Prim2SF_inj. by rewrite !add_spec, Hx, Hx', Hy.
  - left. apply Prim2SF_inj. by rewrite !add_spec, Hx, Hx', Hy.
Qed.

(** A number minus itself is not negative: it is 0 or [NaN]. *)
Lemma sub_diag_not_neg (x : float) : (x - x <? 0)%float = false.
Proof.
  rewrite FloatAxioms.ltb_spec, sub_spec, Prim2SF_zero.
  destruct (Prim2SF x) as [s|s| |s m e]; try (by destruct s); try done.
  unfold SF64sub, SFsub. rewrite Z.sub_diag. done.
Qed.

(** ** Facts about the built-ins *)

Section ArrFacts.
Context {A : Type}.
Implicit Types l : list A.

Lemma slice_from_last5 l : Arr.slice_from (-5)%Z l = drop (length l - 5) l.
Proof.
  unfold Arr.slice_from, Arr.clamp. simpl. f_equal. lia.
Qed.

Lemma slice_from_last5_nil l : Arr.slice_from (-5)%Z l = [] ↔ l = [].
Proof.
  rewrite slice_from_last5. split; [|by intros ->].
  intros H. apply (f_equal length) in H. rewrite length_drop in H.
  destruct l as [|x l]; [done|]. simpl in H. lia.
Qed.

Lemma slice_all l : Arr.slice 0%Z (Z.of_nat (length l)) l = l.
Proof.
  unfold Arr.slice, Arr.clamp.
  destruct (Z.ltb_spec (Z.of_nat (length l)) 0) as [?|_]; [lia|].
  simpl. rewrite Nat2Z.id, Nat.min_id, Nat.sub_0_r. apply firstn_all.
Qed.

Lemma slice_sublist (from to : index) l : sublist (Arr.slice from to l) l.
Proof.
  unfold Arr.slice. etrans; [apply sublist_take|apply sublist_drop].
Qed.

Lemma elem_of_slice (from to : index) l x : x ∈ Arr.slice from to l → x ∈ l.
Proof. intros H. eapply elem_of_sublist; [done|apply slice_sublist]. Qed.

Context `{!EqDecision A}.

Lemma indexOf_bounds l x : (-1 ≤ Arr.indexOf l x < Z.of_nat (length l))%Z.
Proof.
  induction l as [|y l IH]; simpl; [lia|].
  destruct (decide (y = x)); [lia|].
  destruct (Z.ltb_spec (Arr.indexOf l x) 0); lia.
Qed.

Lemma indexOf_absent l x : Arr.indexOf l x = (-1)%Z ↔ x ∉ l.
Proof.
  induction l as [|y l IH]; simpl.
  - split; [intros _; apply not_elem_of_nil|done].
  - rewrite not_elem_of_cons. destruct (decide (y = x)) as [->|Hne].
    + split; [lia|]. intros [? _]. done.
    + pose proof (indexOf_bounds l x).
      destruct (Z.ltb_spec (Arr.indexOf l x) 0).
      * split; [|done]. intros _. split; [done|]. apply IH. lia.
      * split; [lia|]. intros [_ Hin]. apply IH in Hin. lia.
Qed.

Lemma indexOf_lookup l x :
  (0 ≤ Arr.indexOf l x)%Z → l !! Z.to_nat (Arr.indexOf l x) = Some x.
Proof.
  induction l as [|y l IH]; simpl; [lia|].
  destruct (decide (y = x)) as [->|Hne]; [done|].
  pose proof (indexOf_bounds l x).
  destruct (Z.ltb_spec (Arr.indexOf l x) 0); [lia|]. intros _.
  rewrite Z2Nat.inj_add by lia. rewrite Nat.add_comm. simpl. apply IH. lia.
Qed.
End ArrFacts.

Section SortFacts.
Context {A : Type} (before : A → A → bool).
Implicit Types l : list A.

Lemma insert_perm x l : Arr.insert before x l ≡ₚ x :: l.
Proof.
  induction l as [|y l IH]; simpl; [done|].
  destruct (before y x); [|done].
  rewrite IH. apply Permutation_swap.
Qed.

Lemma sort_perm l : Arr.sort before l ≡ₚ l.
Proof.
  induction l as [|x l IH]; simpl; [done|].
  by rewrite insert_perm, IH.
Qed.

Lemma elem_of_sort l x : x ∈ Arr.sort before l ↔ x ∈ l.
Proof. by rewrite sort_perm. Qed.

Lemma length_sort l : length (Arr.sort before l) = length l.
Proof. by rewrite sort_perm. Qed.

(** An element keeps its place among the elements it never has to pass:
    the sub-sequence of the elements with [P] is the same before and
    after the sort when no element with [P] comes strictly before
    another. *)
Section Stable.
Context (P : A → Prop) `{!∀ x, Decision (P x)}.
Hypothesis never_before : ∀ x y, P x → P y → before y x = false.

Lemma filter_insert x l :
  filter P (Arr.insert before x l) = filter P (x :: l).
Proof.
  induction l as [|y l IH]; simpl; [done|].
  destruct (before y x) eqn:Hyx; [|done].
  rewrite !filter_cons in *.
  destruct (decide (P y)) as [Hy|Hy], (decide (P x)) as [Hx|Hx];
    rewrite ?IH; try done.
  rewrite (never_before x y) in Hyx; done.
Qed.

Lemma filter_sort l : filter P (Arr.sort before l) = filter P l.
Proof.
  induction l as [|x l IH]; simpl; [done|].
  rewrite filter_insert, !filter_cons, IH. done.
Qed.
End Stable.

(** With an asymmetric [before] the result is in order: no element comes
    strictly before its predecessor. *)
Section Sorted.
Hypothesis asym : ∀ x y, before x y = true → before y x = false.

Lemma insert_sorted x l :
  Sorted (λ a b, before b a = false) l →
  Sorted (λ a b, before b a = false) (Arr.insert before x l).
Proof.
  induction 1 as [|y l Hl IH Hhd]; simpl.
  - by repeat constructor.
  - destruct (before y x) eqn:Hyx.
    + constructor; [done|].
      destruct Hhd as [|z l Hz]; simpl.
      * constructor. by apply asym.
      * destruct (before z x); constructor; [done|by apply asym].
    + constructor; [by constructor|by constructor].
Qed.

Lemma sort_sorted l : Sorted (λ a b, before b a = false) (Arr.sort before l).
Proof.
  induction l as [|x l IH]; simpl; [constructor|by apply insert_sorted].
Qed.
End Sorted.
End SortFacts.

(** ** The deactivation assessor *)

Lemma year_or_zero_count (row : record) (y : jsstring) :
  year_or_zero (years row) y = count_of row y.
Proof. done. Qed.

Lemma count_of_not_nan (row : record) (y : jsstring) : is_nan (count_of row y) = false.
Proof.
  unfold count_of. destruct (years row !! y) as [v|]; [|done].
  apply or_zero_not_nan.
Qed.

Lemma counts_not_nan (row : record) (labels : list jsstring) :
  Forall (λ v, is_nan v = false) (count_of row <$> labels).
Proof.
  apply Forall_fmap, Forall_forall. intros y _. apply count_of_not_nan.
Qed.

(** The locals of the assessor are the total, the average, the number of
    zeros and the maximum of the counts of the labels it looks at. *)
Lemma last5_stats_spec (row : record) (y0 : jsstring) (rest : list jsstring) :
  let st := last5_stats row y0 rest in
  let counts := count_of row <$> (y0 :: rest) in
  vals st = counts ∧
  total5 st = sum64 counts ∧
  avg5 st = (sum64 counts / Num.of_nat (length (y0 :: rest)))%float ∧
  zeros st = count_zeros counts ∧
  is_max (peak st) counts.
Proof.
  intros st counts. subst st counts. unfold last5_stats.
  cbn [vals total5 avg5 zeros peak].
  split_and!; try done.
  apply max_is_max; [done|]. apply (counts_not_nan row (y0 :: rest)).
Qed.

Lemma assessRecDeact_flag (row : record) (y0 : jsstring) (rest : list jsstring)
    (allYears : list jsstring) :
  Arr.slice_from (-5)%Z allYears = y0 :: rest →
  let st := last5_stats row y0 rest in
  flag (assessRecDeact row allYears) =
    (total5 st <? REC_MIN_TOTAL_5Y)%float && (avg5 st <? REC_MIN_AVG_5Y)%float
    || bool_decide (3 ≤ zeros st)%nat
    || (peak st <? REC_MIN_PEAK_5Y)%float.
Proof.
  intros Hs st. unfold assessRecDeact. rewrite Hs. fold st.
  by destruct (_ || _ || _).
Qed.

Lemma is_max_below (m1 m2 c : float) (l : list float) :
  Forall (λ v, is_nan v = false) l →
  is_max m1 l → is_max m2 l → (m1 <? c)%float = (m2 <? c)%float.
Proof.
  intros Hl [Hin1 Hle1] [Hin2 Hle2].
  rewrite Forall_forall in Hl.
  apply ltb_same_key; auto.
Qed.

(** C1, amended: on a non-empty year index the assessor flags a record
    exactly when, over the last five labels of the index (all of them when
    there are fewer than five), the total of the record's counts, added in
    binary64 arithmetic in the order of the index, is below 15 and that
    total divided by the number of labels is below 3, or at least three of
    the counts are zero, or the greatest count is below 3; on the empty
    index it answers [flag = false] with the reason [No years]. *)
Theorem assessRecDeact_rule (row : record) (allYears : list jsstring)
    (Hnonempty : allYears ≠ []) :
  let labels := last_labels 5 allYears in
  let counts := count_of row <$> labels in
  (flag (assessRecDeact row allYears) = true ↔
     ((sum64 counts <? 15)%float = true ∧
      (sum64 counts / Num.of_nat (length labels) <? 3)%float = true) ∨
     (3 ≤ count_zeros counts)%nat ∨
     (∃ m, is_max m counts ∧ (m <? 3)%float = true)) ∧
  assessRecDeact row [] = {| flag := false; reason := js "No years" |}.
Proof.
  intros labels counts. split; [|done].
  subst labels counts. unfold last_labels.
  rewrite <- slice_from_last5.
  destruct (Arr.slice_from (-5)%Z allYears) as [|y0 rest] eqn:Hs.
  { apply (proj1 (slice_from_last5_nil _)) in Hs. contradiction. }
  rewrite (assessRecDeact_flag row y0 rest allYears Hs).
  destruct (last5_stats_spec row y0 rest) as (_ & Ht & Ha & Hz & Hp).
  cbv zeta in *. rewrite Ht, Ha, Hz.
  rewrite !orb_true_iff, andb_true_iff, bool_decide_eq_true.
  unfold REC_MIN_TOTAL_5Y, REC_MIN_AVG_5Y, REC_MIN_PEAK_5Y.
  split.
  - intros [[H|H]|H]; [by left|by right; left|].
    right; right. by eexists.
  - intros [H|[H|(m & Hm & H)]]; [by left; left|by left; right|].
    right. rewrite <- H.
    apply (is_max_below _ _ _ (count_of row <$> y0 :: rest)); [|done|done].
    apply counts_not_nan.
Qed.

Lemma assessRecDeact_rule_witness :
  flag (assessRecDeact scenario_record scenario_years) = true ↔
    ((sum64 (count_of scenario_record <$> scenario_years) <? 15)%float = true ∧
     (sum64 (count_of scenario_record <$> scenario_years) / Num.of_nat 5 <? 3)%float = true) ∨
    (3 ≤ count_zeros (count_of scenario_record <$> scenario_years))%nat ∨
    (∃ m, is_max m (count_of scenario_record <$> scenario_years) ∧ (m <? 3)%float = true).
Proof.
  assert (Hne : scenario_years ≠ []) by (unfold scenario_years; discriminate).
  exact (proj1 (assessRecDeact_rule scenario_record scenario_years Hne)).
Defined.

Lemma Qsum_cons (x : Q) (l : list Q) : Qsum (x :: l) = (x + Qsum l)%Q.
Proof. done. Qed.

(** C1, as stated, fails where the binary64 total is not the total of the
    counts.  The counts 2.6, 5.4, 0.7, 6.1 and 0.2 add up to
    14.999999999999998 in the assessor, which flags the record, while their
    total is not below 15, none of them is zero and the greatest is 6.1.
    The counts [2^60], 20 and [-2^60] add up to 0 in the assessor, which
    flags the record, while their total is 20, none of them is zero and the
    greatest is [2^60]. *)
Lemma assessRecDeact_total_is_rounded :
  let claimed (counts : list float) :=
    ((Qsum (Num.to_Q <$> counts) < inject_Z 15)%Q ∧
     (Qsum (Num.to_Q <$> counts) / inject_Z (Z.of_nat (length counts)) < inject_Z 3)%Q) ∨
    (3 ≤ count_zeros counts)%nat ∨
    (∃ m, is_max m counts ∧ (m <? 3)%float = true) in
  let counts1 := count_of fraction_record <$> last_labels 5 scenario_years in
  let counts2 := count_of cancel_record <$> last_labels 5 cancel_years in
  (flag (assessRecDeact fraction_record scenario_years) = true ∧
   sum64 counts1 = 14.999999999999998%float ∧
   ¬ claimed counts1) ∧
  (flag (assessRecDeact cancel_record cancel_years) = true ∧
   sum64 counts2 = 0%float ∧
   (Qsum (Num.to_Q <$> counts2) == inject_Z 20)%Q ∧
   ¬ claimed counts2).
Proof.
  cbv zeta.
  assert (H1 : count_of fraction_record <$> last_labels 5 scenario_years =
               [2.6; 5.4; 0.7; 6.1; 0.2]%float) by (by vm_compute).
  assert (H2 : count_of cancel_record <$> last_labels 5 cancel_years =
               [1152921504606846976; 20; -1152921504606846976]%float) by (by vm_compute).
  rewrite H1, H2. split_and!; try (by vm_compute).
  - intros [[H _]|[H|(m & [Hin Hall] & Hlt)]].
    + vm_compute in H. discriminate.
    + vm_compute in H. lia.
    + assert (Hge : (6.1 <=? m)%float = true) by (apply Hall; do 3 right; left).
      repeat (apply elem_of_cons in Hin as [->|Hin]);
        try (by apply elem_of_nil in Hin);
        first [vm_compute in Hge; discriminate|vm_compute in Hlt; discriminate].
  - intros [[H _]|[H|(m & [Hin Hall] & Hlt)]].
    + vm_compute in H. discriminate.
    + vm_compute in H. lia.
    + assert (Hge : (1152921504606846976 <=? m)%float = true) by (apply Hall; left).
      repeat (apply elem_of_cons in Hin as [->|Hin]);
        try (by apply elem_of_nil in Hin);
        first [vm_compute in Hge; discriminate|vm_compute in Hlt; discriminate].
Qed.

(** ** Rounding an integer to a double *)

Lemma digits2_pos_size (p : positive) : digits2_pos p = Pos.size p.
Proof. induction p as [p IH|p IH|]; simpl; by rewrite ?IH. Qed.

Lemma digits2_pos_log2 (p : positive) :
  Zpos (digits2_pos p) = (Z.log2 (Zpos p) + 1)%Z.
Proof.
  rewrite digits2_pos_size. destruct p as [p|p|]; simpl; lia.
Qed.

Lemma canonical_53 (p : positive) (e : Z) :
  (2 ^ 52 ≤ Zpos p < 2 ^ 53)%Z → (-1074 ≤ e)%Z →
  canonical_mantissa prec emax p e = true.
Proof.
  intros Hp He. unfold canonical_mantissa, fexp, SpecFloat.emin, prec, emax.
  rewrite digits2_pos_log2.
  rewrite (Z.log2_unique (Zpos p) 52) by (change (Z.succ 52) with 53%Z; lia).
  apply Z.eqb_eq. lia.
Qed.

Lemma round_half_even_bounds (a b : Z) :
  (a / b ≤ Num.round_half_even a b ≤ a / b + 1)%Z.
Proof.
  unfold Num.round_half_even.
  destruct (2 * (a mod b) ?= b)%Z; [destruct (Z.even _)| |]; lia.
Qed.

Lemma round_half_even_1 (a : Z) : Num.round_half_even a 1 = a.
Proof.
  unfold Num.round_half_even. rewrite Z.mod_1_r, Z.div_1_r. done.
Qed.

Lemma ilog2_integer (n : positive) : Num.ilog2 n 1 = Z.log2 (Zpos n).
Proof.
  unfold Num.ilog2, Num.scaled. change (Z.log2 1) with 0%Z. rewrite Z.sub_0_r.
  pose proof (Z.log2_nonneg (Zpos n)).
  pose proof (Z.log2_spec (Zpos n) ltac:(lia)) as [Hlo _].
  destruct (Z.leb_spec 0 (Z.log2 (Zpos n))); [|lia].
  destruct (Z.ltb_spec (Zpos n) (1 * 2 ^ Z.log2 (Zpos n))); [lia|done].
Qed.

(** The double of a positive integer is a valid one. *)
Lemma round_pos_integer_valid (s : bool) (n : positive) :
  valid_binary (Num.round_pos s n 1) = true.
Proof.
  unfold Num.round_pos. rewrite ilog2_integer.
  pose proof (Z.log2_nonneg (Zpos n)) as Hl0.
  pose proof (Z.log2_spec (Zpos n) ltac:(lia)) as [Hlo Hhi].
  set (l := Z.log2 (Zpos n)) in *.
  rewrite Z.max_l by lia.
  unfold Num.scaled. destruct (Z.leb_spec 0 (l - 52)) as [He|He].
  - set (e := (l - 52)%Z) in *.
    assert (Hpe : (0 < 2 ^ e)%Z) by (apply Z.pow_pos_nonneg; lia).
    replace l with (52 + e)%Z in Hlo by lia.
    replace (Z.succ l) with (53 + e)%Z in Hhi by lia.
    rewrite Z.pow_add_r in Hlo, Hhi by lia.
    rewrite Z.mul_1_l.
    pose proof (round_half_even_bounds (Zpos n) (2 ^ e)) as Hm.
    assert (Hq : (2 ^ 52 ≤ Zpos n / 2 ^ e < 2 ^ 53)%Z).
    { split; [apply Z.div_le_lower_bound; lia|apply Z.div_lt_upper_bound; lia]. }
    set (m := Num.round_half_even (Zpos n) (2 ^ e)) in *.
    destruct (Z.eqb_spec m (2 ^ 53)) as [Hm53|Hm53].
    + change (2 ^ 52)%Z with (Zpos 4503599627370496).
      destruct (Z.leb_spec (e + 1) 971); [|done].
      simpl. apply andb_true_iff. split; [|by apply Z.leb_le].
      apply canonical_53; [done|lia].
    + destruct m as [|p|p] eqn:Hmp; [done| |done].
      destruct (Z.leb_spec e 971); [|done].
      simpl. apply andb_true_iff. split; [|by apply Z.leb_le].
      apply canonical_53; lia.
  - set (e := (l - 52)%Z) in *.
    rewrite round_half_even_1.
    assert (Hpe : (0 < 2 ^ (- e))%Z) by (apply Z.pow_pos_nonneg; lia).
    assert (Hb : (2 ^ 52 ≤ Zpos n * 2 ^ (- e) < 2 ^ 53)%Z).
    { replace 52%Z with (l + - e)%Z at 1 by lia.
      replace 53%Z with (Z.succ l + - e)%Z by lia.
      rewrite !Z.pow_add_r by lia. split; nia. }
    destruct (Z.eqb_spec (Zpos n * 2 ^ (- e)) (2 ^ 53)) as [Hm53|Hm53]; [lia|].
    destruct (Zpos n * 2 ^ (- e))%Z as [|p|p] eqn:Hmp; [done| |done].
    destruct (Z.leb_spec e 971); [|done].
    simpl. apply andb_true_iff. split; [|by apply Z.leb_le].
    apply canonical_53; lia.
Qed.

(** Below [2^53] the double of an integer is the integer. *)
Lemma round_pos_integer_exact (s : bool) (n : positive) :
  (Zpos n < 2 ^ 53)%Z →
  ∃ m e, Num.round_pos s n 1 = S754_finite s m e ∧ (e ≤ 0)%Z ∧
         Zpos m = (Zpos n * 2 ^ (- e))%Z.
Proof.
  intros Hn. unfold Num.round_pos. rewrite ilog2_integer.
  pose proof (Z.log2_nonneg (Zpos n)) as Hl0.
  pose proof (Z.log2_spec (Zpos n) ltac:(lia)) as [Hlo Hhi].
  assert (Hl52 : (Z.log2 (Zpos n) < 53)%Z) by (apply Z.log2_lt_pow2; lia).
  set (l := Z.log2 (Zpos n)) in *.
  rewrite Z.max_l by lia.
  set (e := (l - 52)%Z) in *.
  assert (Hpe : (0 < 2 ^ (- e))%Z) by (apply Z.pow_pos_nonneg; lia).
  assert (Hb : (2 ^ 52 ≤ Zpos n * 2 ^ (- e) < 2 ^ 53)%Z).
  { replace 52%Z with (l + - e)%Z at 1 by lia.
    replace 53%Z with (Z.succ l + - e)%Z by lia.
    rewrite !Z.pow_add_r by lia. split; nia. }
  assert (Hs : Num.round_half_even (Num.scaled n 1 e).1 (Num.scaled n 1 e).2 =
               (Zpos n * 2 ^ (- e))%Z).
  { unfold Num.scaled. destruct (Z.leb_spec 0 e); simpl.
    - assert (e = 0%Z) as -> by lia. simpl. rewrite round_half_even_1. lia.
    - apply round_half_even_1. }
  destruct (Num.scaled n 1 e) as [a b]. simpl in Hs. rewrite Hs.
  destruct (Z.eqb_spec (Zpos n * 2 ^ (- e)) (2 ^ 53)) as [Hm53|Hm53]; [lia|].
  destruct (Zpos n * 2 ^ (- e))%Z as [|p|p] eqn:Hmp; [lia| |lia].
  destruct (Z.leb_spec e 971); [|lia].
  exists p, e. split_and!; [done|lia|done].
Qed.

Lemma round_pos_shape (s : bool) (n d : positive) :
  Num.round_pos s n d = S754_zero s ∨ Num.round_pos s n d = S754_infinity s ∨
  ∃ m e, Num.round_pos s n d = S754_finite s m e.
Proof.
  unfold Num.round_pos.
  destruct (Num.scaled n d _) as [a b].
  destruct (_ =? _)%Z.
  - change (2 ^ 52)%Z with (Zpos 4503599627370496).
    destruct (_ <=? _)%Z; [right; right; by eexists _, _|by right; left].
  - destruct (Num.round_half_even a b); [by left| |by left].
    destruct (_ <=? _)%Z; [right; right; by eexists _, _|by right; left].
Qed.

Lemma round_pos_nonneg (n d : positive) :
  SFleb (S754_zero false) (Num.round_pos false n d) = true.
Proof.
  destruct (round_pos_shape false n d) as [->|[->|(m & e & ->)]]; done.
Qed.

Lemma round_pos_not_nan (s : bool) (n d : positive) : Num.round_pos s n d ≠ S754_nan.
Proof.
  destruct (round_pos_shape s n d) as [->|[->|(m & e & ->)]]; done.
Qed.

Lemma of_Z_pos (n : positive) : Num.of_Z (Zpos n) = SF2Prim (Num.round_pos false n 1).
Proof. done. Qed.

Lemma Prim2SF_of_Z_pos (n : positive) :
  Prim2SF (Num.of_Z (Zpos n)) = Num.round_pos false n 1.
Proof. rewrite of_Z_pos. apply Prim2SF_SF2Prim, round_pos_integer_valid. Qed.

(** The double of a non-negative integer is a number, and not negative;
    [n || 0] leaves it as it is. *)
Lemma of_Z_nonneg (z : Z) :
  (0 ≤ z)%Z →
  is_nan (Num.of_Z z) = false ∧ (0 <=? Num.of_Z z)%float = true ∧
  Num.or_zero (Num.of_Z z) = Num.of_Z z.
Proof.
  intros Hz. destruct z as [|n|n]; [by vm_compute| |lia].
  assert (Hnan : is_nan (Num.of_Z (Zpos n)) = false).
  { apply is_nan_false. rewrite Prim2SF_of_Z_pos. apply round_pos_not_nan. }
  split_and!; [done| |].
  - rewrite FloatAxioms.leb_spec, Prim2SF_of_Z_pos. apply round_pos_nonneg.
  - unfold Num.or_zero. rewrite Hnan. simpl.
    destruct (is_zero (Num.of_Z (Zpos n))) eqn:Hzero; [|done].
    apply is_zero_spec in Hzero as [s Hs].
    apply Prim2SF_inj. rewrite Hs.
    rewrite Prim2SF_of_Z_pos in Hs.
    destruct (round_pos_shape false n 1) as [H|[H|(m & e & H)]];
      rewrite H in Hs; by inversion Hs.
Qed.

Lemma Qpower_2_neg (e : Z) :
  (e ≤ 0)%Z → (inject_Z 2 ^ e == / inject_Z (2 ^ (- e)))%Q.
Proof.
  intros He. replace e with (- - e)%Z at 1 by lia.
  rewrite Qpower_opp. apply Qinv_comp. symmetry. apply Zpower_Qpower. lia.
Qed.

(** Below [2^53] the double of a non-negative integer has the value of
    the integer. *)
Lemma of_Z_exact (z : Z) :
  (0 ≤ z < 2 ^ 53)%Z →
  is_finite (Num.of_Z z) = true ∧ (Num.to_Q (Num.of_Z z) == inject_Z z)%Q.
Proof.
  intros [Hz0 Hz]. destruct z as [|n|n]; [by vm_compute| |lia].
  destruct (round_pos_integer_exact false n Hz) as (m & e & Hr & He & Hm).
  assert (HP : Prim2SF (Num.of_Z (Zpos n)) = S754_finite false m e)
    by (by rewrite Prim2SF_of_Z_pos).
  split.
  - unfold is_finite, is_infinity.
    assert (Hnan : is_nan (Num.of_Z (Zpos n)) = false) by (apply is_nan_false; by rewrite HP).
    rewrite Hnan. simpl. apply negb_true_iff.
    rewrite FloatAxioms.eqb_spec, abs_spec, HP. done.
  - unfold Num.to_Q. rewrite HP. cbn [Num.SF2Q].
    rewrite (Qpower_2_neg e He), Hm, inject_Z_mult.
    assert (Hpe : (0 < 2 ^ (- e))%Z) by (apply Z.pow_pos_nonneg; lia).
    assert (Hne : ¬ (inject_Z (2 ^ (- e)) == 0)%Q).
    { unfold Qeq. simpl. lia. }
    change (inject_Z 1) with 1%Q. field. done.
Qed.

(** C9: for the record with the counts 0, 0, 1, 0, 0 over the five labels
    2019-20 .. 2023-24, which are the whole year index, the assessor
    computes the total 1, the average 0.2, four zeros and the peak 1, flags
    the record, and its reason contains [zeros 4/5] and [max/year 1]. *)
Theorem scenario_assessment :
  let st := last5_stats scenario_record (js "2019-20")
              [js "2020-21"; js "2021-22"; js "2022-23"; js "2023-24"] in
  let result := assessRecDeact scenario_record scenario_years in
  allYears [scenario_record] = scenario_years ∧
  Arr.slice_from (-5)%Z scenario_years = scenario_years ∧
  total5 st = 1%float ∧
  avg5 st = 0.2%float ∧
  zeros st = 4%nat ∧
  peak st = 1%float ∧
  flag result = true ∧
  reason result = js "5y total 1 & avg 0.2 (<15, <3); zeros 4/5; max/year 1 (<3)" ∧
  Str.includes (js "zeros 4/5") (reason result) = true ∧
  Str.includes (js "max/year 1") (reason result) = true.
Proof.
  cbv zeta. split_and!; by vm_compute.
Qed.

(** ** Range resolution *)

Lemma indexOf_label_absent (idx : list jsstring) (o : option jsstring) :
  ¬ label_present idx o → Arr.indexOf (Some <$> idx) o = (-1)%Z.
Proof.
  intros Hno. apply indexOf_absent. intros Hin.
  apply list_elem_of_fmap in Hin as (s & -> & Hs).
  apply Hno. by exists s.
Qed.

Lemma visibleYears_swap (idx : list jsstring) (rs re : option jsstring) :
  visibleYears idx re rs = visibleYears idx rs re.
Proof.
  unfold visibleYears.
  destruct (length idx =? 0)%nat, (truthy_label rs), (truthy_label re); simpl; try done.
  destruct (Z.eqb_spec (Arr.indexOf (Some <$> idx) rs) (-1)),
           (Z.eqb_spec (Arr.indexOf (Some <$> idx) re) (-1)); simpl; try done.
  destruct (Z.leb_spec (Arr.indexOf (Some <$> idx) re) (Arr.indexOf (Some <$> idx) rs)),
           (Z.leb_spec (Arr.indexOf (Some <$> idx) rs) (Arr.indexOf (Some <$> idx) re));
    try done; try lia.
  by replace (Arr.indexOf (Some <$> idx) re) with (Arr.indexOf (Some <$> idx) rs) by lia.
Qed.

(** C5: with both labels in the index, resolving the range (end, start)
    gives the same slice of visible years as resolving (start, end). *)
Theorem visibleYears_order_insensitive (idx : list jsstring) (s e : jsstring)
    (Hs : s ∈ idx) (He : e ∈ idx) :
  visibleYears idx (Some e) (Some s) = visibleYears idx (Some s) (Some e).
Proof. apply visibleYears_swap. Qed.

Lemma visibleYears_order_insensitive_witness :
  visibleYears scenario_years (Some (js "2022-23")) (Some (js "2020-21")) =
  visibleYears scenario_years (Some (js "2020-21")) (Some (js "2022-23")).
Proof.
  apply visibleYears_order_insensitive.
  - right. left.
  - do 3 right. left.
Defined.

(** C6: when the start or the end label is not in the index, range
    resolution answers the whole index; it is a total function, so no error
    arises on any input. *)
Theorem visibleYears_fails_open (idx : list jsstring) (rs re : option jsstring)
    (Habsent : ¬ label_present idx rs ∨ ¬ label_present idx re) :
  visibleYears idx rs re = idx.
Proof.
  unfold visibleYears.
  destruct (_ || _ || _); [done|].
  destruct Habsent as [H|H]; apply indexOf_label_absent in H; rewrite H; simpl; [done|].
  by rewrite orb_true_r.
Qed.

Lemma visibleYears_fails_open_witness :
  visibleYears scenario_years (Some (js "2020-21")) (Some (js "1999-00")) = scenario_years.
Proof.
  apply visibleYears_fails_open. right.
  intros (s & [= <-] & Hin). vm_compute in Hin.
  repeat (apply elem_of_cons in Hin as [Hin|Hin]; [discriminate|]).
  by apply elem_of_nil in Hin.
Defined.

(** ** The pipeline *)

Lemma Sorted_weaken {A} (R1 R2 : A → A → Prop) (l : list A) :
  (∀ a b, R1 a b → R2 a b) → Sorted R1 l → Sorted R2 l.
Proof.
  intros HR. induction 1 as [|x l _ IH Hhd]; constructor; [done|].
  destruct Hhd; constructor. by apply HR.
Qed.

(** On rows with the same key the comparator is not negative. *)
Lemma compare_rows_equal_keys (sortKey sortDir : jsstring) (a b : view_row) :
  getVal sortKey a = getVal sortKey b →
  (compare_rows sortKey sortDir a b <? 0)%float = false.
Proof.
  unfold compare_rows. intros ->. destruct (decide _); apply sub_diag_not_neg.
Qed.

(** The sort stage rearranges the rows. *)
Lemma sort_rows_perm (sortKey sortDir : jsstring) (out : list view_row) :
  sort_rows sortKey sortDir out ≡ₚ out.
Proof. apply sort_perm. Qed.


Section PipelineFacts.
Variable toLowerCase : jsstring → jsstring.

(** Every row the pipeline puts out is a record of the input with its
    computed columns. *)
Lemma elem_of_before_sort (p : Params.t) (rows : list record)
    (visible idx : list jsstring) (x : view_row) :
  x ∈ before_sort toLowerCase p rows visible idx →
  ∃ r, r ∈ rows ∧ x = attach visible idx r.
Proof.
  unfold before_sort. intros Hx.
  assert (Hmap : x ∈ attach visible idx <$>
            (let out := rows in
             let out := if decide (Params.dept p = js "All") then out
                        else filter (λ r, dept r = Params.dept p) out in
             let out := if decide (Params.award p = js "All") then out
                        else filter (λ r, award r = Params.award p) out in
             if decide (Str.trim (Params.q p) = []) then out
             else filter (λ r, matches_keyword toLowerCase
                                 (toLowerCase (Params.q p)) r = true) out)).
  { destruct (Params.recDeactOnly p); [|done]. by apply list_elem_of_filter in Hx as [_ ?]. }
  clear Hx. cbv zeta in Hmap.
  apply list_elem_of_fmap in Hmap as (r & -> & Hr). exists r. split; [|done].
  repeat match type of Hr with
         | _ ∈ (if ?c then _ else _) => destruct c
         | _ ∈ filter _ _ => apply list_elem_of_filter in Hr as [_ Hr]
         end; done.
Qed.

Lemma elem_of_filtered (p : Params.t) (rows : list record)
    (visible idx : list jsstring) (x : view_row) :
  x ∈ filtered toLowerCase p rows visible idx →
  ∃ r, r ∈ rows ∧ x = attach visible idx r.
Proof.
  unfold filtered. intros Hx. apply elem_of_slice in Hx.
  unfold sort_rows in Hx. apply elem_of_sort in Hx.
  by apply elem_of_before_sort in Hx.
Qed.

(** With the parameters that filter nothing, every record has its row in
    the output. *)
Lemma elem_of_filtered_default (rows : list record) (visible idx : list jsstring)
    (r : record) :
  r ∈ rows → attach visible idx r ∈ filtered toLowerCase default_params rows visible idx.
Proof.
  intros Hr. unfold filtered. cbn [Params.topN Params.sortKey Params.sortDir default_params].
  destruct (decide (js "All" = js "All")) as [_|?]; [|done].
  rewrite slice_all. unfold sort_rows. apply elem_of_sort.
  unfold before_sort. cbn. by apply list_elem_of_fmap_2.
Qed.

End PipelineFacts.

(** C7: for a fixed record set and parameters, the flag and the reason a
    record gets in the output are the same under any two visible ranges:
    they are the assessment of the record against the full year index. *)
Theorem recDeact_independent_of_range (toLowerCase : jsstring → jsstring)
    (p : Params.t) (rows : list record)
    (idx visible1 visible2 : list jsstring) (x1 x2 : view_row)
    (H1 : x1 ∈ filtered toLowerCase p rows visible1 idx)
    (H2 : x2 ∈ filtered toLowerCase p rows visible2 idx)
    (Hsame : base x1 = base x2) :
  recDeact x1 = recDeact x2 ∧ recDeactReason x1 = recDeactReason x2 ∧
  recDeact x1 = flag (assessRecDeact (base x1) idx) ∧
  recDeactReason x1 = reason (assessRecDeact (base x1) idx).
Proof.
  apply elem_of_filtered in H1 as (r1 & _ & ->).
  apply elem_of_filtered in H2 as (r2 & _ & ->).
  simpl in *. by subst.
Qed.

Lemma recDeact_independent_of_range_witness :
  let x1 := attach scenario_years scenario_years scenario_record in
  let x2 := attach [js "2021-22"] scenario_years scenario_record in
  recDeact x1 = recDeact x2 ∧ recDeactReason x1 = recDeactReason x2 ∧
  recDeact x1 = flag (assessRecDeact (base x1) scenario_years) ∧
  recDeactReason x1 = reason (assessRecDeact (base x1) scenario_years).
Proof.
  intros x1 x2.
  apply (recDeact_independent_of_range lower_ascii default_params [scenario_record]
           scenario_years scenario_years [js "2021-22"] x1 x2).
  - vm_compute. left.
  - vm_compute. left.
  - reflexivity.
Defined.

(** ** The year index *)

Lemma elem_of_keys {V} (m : gmap jsstring V) (k : jsstring) :
  k ∈ keys m ↔ is_Some (m !! k).
Proof.
  unfold keys. rewrite list_elem_of_fmap. split.
  - intros ([k' v] & -> & Hin). apply elem_of_map_to_list in Hin. by exists v.
  - intros [v Hv]. exists (k, v). split; [done|]. by apply elem_of_map_to_list.
Qed.

Lemma elem_of_set_add (acc : list jsstring) (y k : jsstring) :
  k ∈ set_add acc y ↔ k ∈ acc ∨ k = y.
Proof.
  unfold set_add. destruct (decide (y ∈ acc)) as [Hin|Hin].
  - split; [by left|]. by intros [?| ->].
  - rewrite elem_of_app, list_elem_of_singleton. done.
Qed.

Lemma NoDup_set_add (acc : list jsstring) (y : jsstring) :
  NoDup acc → NoDup (set_add acc y).
Proof.
  unfold set_add. intros Hnd. destruct (decide (y ∈ acc)) as [Hin|Hin]; [done|].
  apply NoDup_app. split_and!; [done| |apply NoDup_singleton].
  intros x Hx ->%list_elem_of_singleton. done.
Qed.

Lemma elem_of_add_all (ks acc : list jsstring) (k : jsstring) :
  k ∈ fold_left set_add ks acc ↔ k ∈ acc ∨ k ∈ ks.
Proof.
  revert acc. induction ks as [|y ks IH]; intros acc; simpl.
  - rewrite elem_of_nil. tauto.
  - rewrite IH, elem_of_set_add, elem_of_cons. tauto.
Qed.

Lemma NoDup_add_all (ks acc : list jsstring) :
  NoDup acc → NoDup (fold_left set_add ks acc).
Proof.
  revert acc. induction ks as [|y ks IH]; intros acc Hnd; simpl; [done|].
  by apply IH, NoDup_set_add.
Qed.

Lemma elem_of_collect (rows : list record) (acc : list jsstring) (k : jsstring) :
  k ∈ fold_left (λ acc r, fold_left set_add (keys (years r)) acc) rows acc ↔
  k ∈ acc ∨ ∃ r, r ∈ rows ∧ is_Some (years r !! k).
Proof.
  revert acc. induction rows as [|r rows IH]; intros acc; simpl.
  - split; [by left|]. intros [?|(r & Hr & _)]; [done|]. by apply elem_of_nil in Hr.
  - rewrite IH, elem_of_add_all, elem_of_keys. split.
    + intros [[?|?]|(r' & Hr' & ?)]; [by left| |].
      * right. exists r. split; [by left|done].
      * right. exists r'. split; [by right|done].
    + intros [?|(r' & [->|Hr']%elem_of_cons & ?)]; [by left; left|by left; right|].
      right. by exists r'.
Qed.

Lemma NoDup_collect (rows : list record) (acc : list jsstring) :
  NoDup acc →
  NoDup (fold_left (λ acc r, fold_left set_add (keys (years r)) acc) rows acc).
Proof.
  revert acc. induction rows as [|r rows IH]; intros acc Hnd; simpl; [done|].
  by apply IH, NoDup_add_all.
Qed.

(** The year index holds each label once, and holds exactly the labels some
    record has a count for. *)
Lemma NoDup_allYears (rows : list record) : NoDup (allYears rows).
Proof.
  unfold allYears. rewrite sort_perm. apply NoDup_collect, NoDup_nil_2.
Qed.

Lemma elem_of_allYears (rows : list record) (k : jsstring) :
  k ∈ allYears rows ↔ ∃ r, r ∈ rows ∧ is_Some (years r !! k).
Proof.
  unfold allYears. rewrite elem_of_sort, elem_of_collect, elem_of_nil. tauto.
Qed.

(** *** The order of the labels *)

Lemma ltb_irrefl (a : jsstring) : Str.ltb a a = false.
Proof.
  induction a as [|c a IH]; simpl; [done|].
  rewrite N.ltb_irrefl, N.eqb_refl, IH. done.
Qed.

Lemma ltb_trans (a b c : jsstring) :
  Str.ltb a b = true → Str.ltb b c = true → Str.ltb a c = true.
Proof.
  revert b c. induction a as [|x a IH]; intros [|y b] [|z c]; simpl; try done.
  rewrite !orb_true_iff, !andb_true_iff, !N.ltb_lt, !N.eqb_eq.
  intros [Hxy|[-> Hab]] [Hyz|[-> Hbc]].
  - left. lia.
  - by left.
  - by left.
  - right. split; [done|]. by apply (IH b c).
Qed.

Lemma ltb_asym (a b : jsstring) : Str.ltb a b = true → Str.ltb b a = false.
Proof.
  intros Hab. destruct (Str.ltb b a) eqn:Hba; [|done].
  by rewrite <- (ltb_irrefl a), <- (ltb_trans a b a Hab Hba).
Qed.

Lemma ltb_total (a b : jsstring) :
  Str.ltb b a = false → a ≠ b → Str.ltb a b = true.
Proof.
  revert b. induction a as [|x a IH]; intros [|y b]; simpl; try done.
  rewrite orb_false_iff, andb_false_iff, orb_true_iff, andb_true_iff.
  rewrite N.ltb_ge, N.ltb_lt, !N.eqb_neq, N.eqb_eq.
  intros [Hyx Hba] Hne.
  destruct (decide (x = y)) as [->|Hxy]; [|left; lia].
  right. split; [done|]. apply IH; [|congruence].
  destruct Hba as [?|?]; done.
Qed.

Lemma allYears_sorted (rows : list record) :
  Sorted (λ a b, Str.ltb b a = false) (allYears rows).
Proof. apply sort_sorted, ltb_asym. Qed.

(** A list in order without repetition is in strict order, and so is what
    a filter keeps of it. *)
Lemma StronglySorted_strict (l : list jsstring) :
  Sorted (λ a b, Str.ltb b a = false) l → NoDup l →
  StronglySorted (λ a b, Str.ltb a b = true) l.
Proof.
  intros Hs Hnd. apply Sorted_StronglySorted.
  { intros a b c. apply ltb_trans. }
  induction Hs as [|x l _ IH Hhd]; [constructor|].
  apply NoDup_cons in Hnd as [Hx Hnd]. constructor; [by apply IH|].
  destruct Hhd as [|y l Hy]; constructor.
  apply ltb_total; [done|]. intros ->. apply Hx. by left.
Qed.

Lemma StronglySorted_filter {A} (R : A → A → Prop) (P : A → Prop)
    `{!∀ x, Decision (P x)} (l : list A) :
  StronglySorted R l → StronglySorted R (filter P l).
Proof.
  induction 1 as [|x l _ IH Hall]; [constructor|].
  rewrite filter_cons. destruct (decide (P x)); [|done].
  constructor; [done|].
  apply Forall_forall. intros y [_ Hy]%list_elem_of_filter.
  rewrite Forall_forall in Hall. by apply Hall.
Qed.

(** The labels of the index a record has an entry for. *)
Lemma own_labels (rows : list record) (r : record) :
  r ∈ rows →
  let labels := filter (λ y, is_Some (years r !! y)) (allYears rows) in
  (∀ y, y ∈ labels ↔ is_Some (years r !! y)) ∧ ascending labels.
Proof.
  intros Hr labels. split.
  - intros y. unfold labels. rewrite list_elem_of_filter, elem_of_allYears.
    split; [tauto|]. intros Hy. split; [done|]. by exists r.
  - apply StronglySorted_Sorted, StronglySorted_filter, StronglySorted_strict.
    + apply allYears_sorted.
    + apply NoDup_allYears.
Qed.

(** The [reduce] along an index adds the counts of the labels the record
    has, in the order of the index; a label it lacks adds a 0. *)
Lemma reduce_own_labels (r : record) (idx : list jsstring) (a a' : float) :
  same_number a a' →
  same_number
    (Arr.reduce (λ sum y, (sum + year_or_zero (years r) y)%float) a idx)
    (fold_left PrimFloat.add
       (count_of r <$> filter (λ y, is_Some (years r !! y)) idx) a').
Proof.
  unfold Arr.reduce. revert a a'.
  induction idx as [|y idx IH]; intros a a' Ha; simpl; [done|].
  rewrite filter_cons. destruct (decide (is_Some (years r !! y))) as [Hy|Hy].
  - rewrite fmap_cons. simpl. apply IH.
    rewrite year_or_zero_count. by apply add_same_number.
  - apply IH. apply eq_None_not_Some in Hy.
    unfold year_or_zero. rewrite Hy.
    eapply same_number_trans; [apply add_zero_r|done].
Qed.

(** C4, amended: when the visible range is the full year index of the
    record set, the total of every record of the set is the sum of the
    counts of that record, added in binary64 arithmetic from 0 in the
    ascending order of their labels: each count enters once, and a label of
    another record adds nothing.  The row of a record carries that record;
    every row the pipeline puts out is the row of a record of the set, and
    with the parameters that filter nothing every record has its row in
    the output. *)
Theorem totalRange_full_index (toLowerCase : jsstring → jsstring)
    (p : Params.t) (rows : list record) (visible : list jsstring) (r : record)
    (Hfull : visible = allYears rows)
    (Hr : r ∈ rows) :
  let x := attach visible (allYears rows) r in
  base x = r ∧
  (∃ labels, (∀ y, y ∈ labels ↔ is_Some (years r !! y)) ∧ ascending labels ∧
             same_number (totalRange x) (sum64 (count_of r <$> labels))) ∧
  (∀ x', x' ∈ filtered toLowerCase p rows visible (allYears rows) →
         ∃ r', r' ∈ rows ∧ x' = attach visible (allYears rows) r') ∧
  x ∈ filtered toLowerCase default_params rows visible (allYears rows).
Proof.
  intros x. subst x visible. split_and!.
  - done.
  - exists (filter (λ y, is_Some (years r !! y)) (allYears rows)).
    destruct (own_labels rows r Hr) as [Hin Hasc].
    split_and!; [done|done|].
    unfold attach. cbn [totalRange]. apply reduce_own_labels, same_number_refl.
  - intros x'. apply elem_of_filtered.
  - by apply elem_of_filtered_default.
Qed.

Lemma totalRange_full_index_witness :
  let rows := [scenario_record; other_record] in
  let x := attach (allYears rows) (allYears rows) other_record in
  base x = other_record ∧
  (∃ labels, (∀ y, y ∈ labels ↔ is_Some (years other_record !! y)) ∧ ascending labels ∧
             same_number (totalRange x) (sum64 (count_of other_record <$> labels))) ∧
  (∀ x', x' ∈ filtered lower_ascii default_params rows (allYears rows) (allYears rows) →
         ∃ r', r' ∈ rows ∧ x' = attach (allYears rows) (allYears rows) r') ∧
  x ∈ filtered lower_ascii default_params rows (allYears rows) (allYears rows).
Proof.
  intros rows x.
  apply (totalRange_full_index lower_ascii default_params rows (allYears rows) other_record).
  - reflexivity.
  - right. left.
Defined.

(** C4, as stated, fails where the binary64 total is not the sum of the
    counts: a record with the counts [2^53], 1 and 1 gets the total
    [2^53], while its counts sum to [2^53 + 2]; added in another order,
    1 + 1 + [2^53], the three counts give [2^53 + 2] in binary64 as well. *)
Lemma totalRange_is_rounded :
  let rows := [large_record] in
  let x := attach (allYears rows) (allYears rows) large_record in
  x ∈ filtered lower_ascii default_params rows (allYears rows) (allYears rows) ∧
  allYears rows = [js "2019-20"; js "2020-21"; js "2021-22"] ∧
  totalRange x = 9007199254740992%float ∧
  (Qsum (Num.to_Q <$> values_of large_record) == inject_Z 9007199254740994)%Q ∧
  ¬ (Num.to_Q (totalRange x) == Qsum (Num.to_Q <$> values_of large_record))%Q ∧
  sum64 [1; 1; 9007199254740992]%float = 9007199254740994%float.
Proof.
  cbv zeta. split_and!; try (by vm_compute).
  - vm_compute. left.
Qed.

(** ** The record normalizer *)

Lemma year_pattern_here_spec (k : jsstring) :
  year_pattern_here k = true ↔
  ∃ (post : jsstring) (d1 d2 d3 d4 d5 d6 : N),
    k = d1 :: d2 :: d3 :: d4 :: 45%N :: d5 :: d6 :: post ∧
    Str.is_digit d1 = true ∧ Str.is_digit d2 = true ∧ Str.is_digit d3 = true ∧
    Str.is_digit d4 = true ∧ Str.is_digit d5 = true ∧ Str.is_digit d6 = true.
Proof.
  split.
  - destruct k as [|d1 [|d2 [|d3 [|d4 [|dash [|d5 [|d6 post]]]]]]]; simpl; try done.
    rewrite !andb_true_iff. intros [[[[[[? ?] ?] ?] Hd] ?] ?].
    apply N.eqb_eq in Hd as ->.
    exists post, d1, d2, d3, d4, d5, d6. done.
  - intros (post & d1 & d2 & d3 & d4 & d5 & d6 & -> & H1 & H2 & H3 & H4 & H5 & H6).
    simpl. by rewrite H1, H2, H3, H4, H5, H6.
Qed.

(** The pattern test holds exactly of the names that contain a year label,
    wherever it stands in the name. *)
Lemma year_pattern_test_spec (k : jsstring) :
  year_pattern_test k = true ↔ contains_year_label k.
Proof.
  unfold contains_year_label. induction k as [|c k IH].
  - split; [done|].
    intros (pre & post & d1 & d2 & d3 & d4 & d5 & d6 & Hk & _).
    destruct pre; discriminate.
  - cbn [year_pattern_test]. rewrite orb_true_iff, year_pattern_here_spec, IH. split.
    + intros [(post & d1 & d2 & d3 & d4 & d5 & d6 & -> & H)|
              (pre & post & d1 & d2 & d3 & d4 & d5 & d6 & -> & H)].
      * by exists [], post, d1, d2, d3, d4, d5, d6.
      * by exists (c :: pre), post, d1, d2, d3, d4, d5, d6.
    + intros (pre & post & d1 & d2 & d3 & d4 & d5 & d6 & Hk & H).
      destruct pre as [|c' pre]; simpl in Hk.
      * left. by exists post, d1, d2, d3, d4, d5, d6.
      * injection Hk as -> ->. right. by exists pre, post, d1, d2, d3, d4, d5, d6.
Qed.

(** The years mapping holds the year-named columns of the row, each with
    the number its cell gives. *)
Lemma tidyRow_years_lookup (row : raw_row) (y : jsstring) :
  years (tidyRow row) !! y =
    if year_pattern_test y
    then (λ s, Num.or_zero (Num.StringToNumber s)) <$> row !! y
    else None.
Proof.
  unfold tidyRow. cbn [years].
  set (ys := filter (λ k, year_pattern_test k = true) (keys row)).
  assert (Hfst : ((λ y, (y, year_value row y)) <$> ys).*1 = ys).
  { rewrite <- list_fmap_compose. induction ys as [|k ks IH]; [done|].
    by rewrite fmap_cons, IH. }
  assert (Hnd : NoDup ys).
  { apply NoDup_filter, NoDup_fst_map_to_list. }
  assert (Hys : ∀ k, k ∈ ys ↔ year_pattern_test k = true ∧ is_Some (row !! k)).
  { intros k. unfold ys. by rewrite list_elem_of_filter, elem_of_keys. }
  destruct (year_pattern_test y) eqn:Hy, (row !! y) as [s|] eqn:Hrow; simpl.
  - apply elem_of_list_to_map_1; [by rewrite Hfst|].
    apply list_elem_of_fmap. exists y. split.
    + unfold year_value. by rewrite Hrow.
    + apply Hys. split; [done|by eexists].
  - apply not_elem_of_list_to_map_1. rewrite Hfst, Hys, Hrow.
    intros [_ [? ?]]. done.
  - apply not_elem_of_list_to_map_1. rewrite Hfst, Hys, Hy. intros [? _]. done.
  - apply not_elem_of_list_to_map_1. rewrite Hfst, Hys, Hy. intros [? _]. done.
Qed.

(** C10: the normalizer takes a column as a year column exactly when its
    name contains four digits, a dash and two digits anywhere (the pattern
    test has no anchor); so a column such as [xx2019-20yy] is read into the
    years mapping. *)
Theorem tidyRow_year_columns_unanchored :
  (∀ (row : raw_row) (k : jsstring),
     is_Some (years (tidyRow row) !! k) ↔
     is_Some (row !! k) ∧ contains_year_label k) ∧
  contains_year_label (js "xx2019-20yy") ∧
  years (tidyRow {[ js "xx2019-20yy" := js "4"; js "DEPT" := js "Arts" ]})
    !! js "xx2019-20yy" = Some 4%float.
Proof.
  split_and!.
  - intros row k. rewrite tidyRow_years_lookup, <- year_pattern_test_spec.
    destruct (year_pattern_test k).
    + rewrite fmap_is_Some. tauto.
    + split; [by intros [? ?]|by intros [_ ?]].
  - apply year_pattern_test_spec. reflexivity.
  - rewrite tidyRow_years_lookup. by vm_compute.
Qed.

(** *** What [Number] reads from a cell *)

Lemma is_digit_bounds (c : N) : Str.is_digit c = true → (48 ≤ c ≤ 57)%N.
Proof.
  unfold Str.is_digit. intros [H1 H2]%andb_true_iff.
  apply N.leb_le in H1, H2. lia.
Qed.

Lemma digit_not_space (c : N) : Str.is_digit c = true → Str.is_space c = false.
Proof.
  intros Hc%is_digit_bounds. unfold Str.is_space.
  repeat (apply orb_false_iff; split); try (apply N.eqb_neq; lia).
  - apply andb_false_iff. right. apply N.leb_gt. lia.
  - apply andb_false_iff. left. apply N.leb_gt. lia.
Qed.

Lemma digit_not_char (c d : N) :
  Str.is_digit c = true → Str.is_digit d = false → (c =? d)%N = false.
Proof.
  intros Hc Hd. destruct (N.eqb_spec c d) as [->|]; [congruence|done].
Qed.

Lemma digit_value_nonneg (c : N) : Str.is_digit c = true → (0 ≤ Num.digit_value c)%Z.
Proof.
  intros Hc%is_digit_bounds. unfold Num.digit_value. lia.
Qed.

Lemma trimEnd_no_space (s : jsstring) :
  forallb (λ c, negb (Str.is_space c)) s = true → Str.trimEnd s = s.
Proof.
  induction s as [|c s IH]; simpl; [done|].
  rewrite andb_true_iff, negb_true_iff. intros [Hc Hs].
  rewrite (IH Hs). destruct s; [by rewrite Hc|done].
Qed.

Lemma all_digits_no_space (s : jsstring) :
  forallb Str.is_digit s = true → forallb (λ c, negb (Str.is_space c)) s = true.
Proof.
  induction s as [|c s IH]; simpl; [done|].
  rewrite !andb_true_iff. intros [Hc Hs].
  by rewrite (digit_not_space c Hc), (IH Hs).
Qed.

Lemma trim_digits (s : jsstring) : forallb Str.is_digit s = true → Str.trim s = s.
Proof.
  intros Hs. unfold Str.trim.
  assert (Str.trimStart s = s) as ->.
  { destruct s as [|c s]; [done|]. simpl in *.
    apply andb_true_iff in Hs as [Hc _]. by rewrite (digit_not_space c Hc). }
  by apply trimEnd_no_space, all_digits_no_space.
Qed.

Lemma span_digits_all (s : jsstring) (acc : Z) (n : nat) :
  forallb Str.is_digit s = true →
  Num.span_digits acc n s = (decimal_value_from acc s, (n + length s)%nat, []).
Proof.
  revert acc n. induction s as [|c s IH]; intros acc n; simpl.
  - intros _. by rewrite Nat.add_0_r.
  - rewrite andb_true_iff. intros [Hc Hs]. rewrite Hc, (IH _ _ Hs).
    do 2 f_equal. lia.
Qed.

Lemma decimal_value_from_nonneg (s : jsstring) (acc : Z) :
  forallb Str.is_digit s = true → (0 ≤ acc)%Z → (0 ≤ decimal_value_from acc s)%Z.
Proof.
  revert acc. induction s as [|c s IH]; intros acc; simpl; [done|].
  rewrite andb_true_iff. intros [Hc Hs] Hacc. apply IH; [done|].
  pose proof (digit_value_nonneg c Hc). lia.
Qed.

Lemma round_Q_integer (z : Z) :
  Num.round_Q (inject_Z z * inject_Z 10 ^ (0 - Z.of_nat 0))%Q = Num.of_Z z.
Proof.
  unfold Num.of_Z, Num.round_Q. simpl. by rewrite Z.mul_1_r.
Qed.

(** An unsigned decimal numeral reads as the double nearest to the integer
    it denotes. *)
Lemma StringToNumber_digits (s : jsstring) :
  s ≠ [] → forallb Str.is_digit s = true →
  Num.StringToNumber s = Num.of_Z (decimal_value s).
Proof.
  intros Hne Hs. unfold Num.StringToNumber. rewrite (trim_digits s Hs).
  destruct s as [|c t]; [done|]. clear Hne.
  assert (Hc : Str.is_digit c = true).
  { simpl in Hs. by apply andb_true_iff in Hs as [? _]. }
  assert (Num.radix_prefix (c :: t) = None) as ->.
  { unfold Num.radix_prefix. destruct t as [|d t]; [done|].
    assert (Hd : Str.is_digit d = true).
    { simpl in Hs. apply andb_true_iff in Hs as [_ Hs].
      by apply andb_true_iff in Hs as [? _]. }
    rewrite !(digit_not_char d) by done. simpl. by destruct (c =? 48)%N. }
  assert (Num.split_sign (c :: t) = (false, c :: t)) as Hsign.
  { unfold Num.split_sign. by rewrite !(digit_not_char c). }
  unfold Num.decimal_literal. rewrite Hsign.
  unfold Num.unsigned_decimal_literal.
  destruct (decide (c :: t = js "Infinity")) as [Hinf|_].
  { rewrite Hinf in Hs. by vm_compute in Hs. }
  rewrite (span_digits_all _ _ _ Hs).
  cbn [length Nat.add Num.exponent_part].
  by rewrite round_Q_integer.
Qed.

Lemma StringToNumber_blank (s : jsstring) :
  Str.trim s = [] → Num.StringToNumber s = 0%float.
Proof. unfold Num.StringToNumber. by intros ->. Qed.

(** C3, as stated, fails: the cell [-5] of a year column is kept as the
    count -5, the cell [1.5] as 1.5, and the cell [Infinity] as the
    infinity; none of them is a non-negative integer. *)
Lemma tidyRow_keeps_negative_count :
  let row : raw_row := {[ js "DEPT" := js "Arts"; js "2019-20" := js "-5";
                          js "2020-21" := js "1.5"; js "2021-22" := js "Infinity" ]} in
  years (tidyRow row) !! js "2019-20" = Some (-5)%float ∧
  ¬ nonneg_integer (-5)%float ∧
  years (tidyRow row) !! js "2020-21" = Some 1.5%float ∧
  ¬ nonneg_integer 1.5%float ∧
  years (tidyRow row) !! js "2021-22" = Some infinity ∧
  ¬ nonneg_integer infinity.
Proof.
  cbv zeta. split_and!; try (by vm_compute).
  - intros (z & Hz & _ & Heq).
    replace (Num.to_Q (-5)%float) with (- 5629499534213120 # 1125899906842624)%Q
      in Heq by (by vm_compute).
    unfold Qeq in Heq. simpl in Heq. lia.
  - intros (z & Hz & _ & Heq).
    replace (Num.to_Q 1.5%float) with (6755399441055744 # 4503599627370496)%Q in Heq
      by (by vm_compute).
    unfold Qeq in Heq. simpl in Heq. lia.
  - intros (z & Hz & Hfin & _). by vm_compute in Hfin.
Qed.

(** C3, amended: every value of the years mapping is the number [Number]
    reads from the cell of its column, with 0 in place of [NaN], so it is
    never [NaN]: a cell that is not numeric gives 0, a blank cell gives 0,
    and an unsigned decimal numeral gives the double nearest to the integer
    it denotes, which is not negative and, for an integer below [2^53], is
    that integer; whatever else [Number] reads (a negative or a fractional
    numeral, an infinity) is kept as it is. *)
Theorem tidyRow_years_values (row : raw_row) (y : jsstring) (v : float)
    (Hv : years (tidyRow row) !! y = Some v) :
  ∃ s, row !! y = Some s ∧
       v = Num.or_zero (Num.StringToNumber s) ∧
       is_nan v = false ∧
       (is_nan (Num.StringToNumber s) = true → v = 0%float) ∧
       (Str.trim s = [] → v = 0%float) ∧
       (s ≠ [] → forallb Str.is_digit s = true →
          v = Num.of_Z (decimal_value s) ∧
          (0 <=? v)%float = true ∧
          ((decimal_value s < 2 ^ 53)%Z →
             nonneg_integer v ∧ (Num.to_Q v == inject_Z (decimal_value s))%Q)).
Proof.
  rewrite tidyRow_years_lookup in Hv.
  destruct (year_pattern_test y); [|done].
  destruct (row !! y) as [s|]; [|done]. simpl in Hv. injection Hv as <-.
  exists s. split_and!; try done.
  - apply or_zero_not_nan.
  - apply or_zero_nan.
  - intros Hb. by rewrite (StringToNumber_blank s Hb).
  - intros Hne Hs. rewrite (StringToNumber_digits s Hne Hs).
    assert (Hz : (0 ≤ decimal_value s)%Z) by (by apply decimal_value_from_nonneg).
    destruct (of_Z_nonneg _ Hz) as (_ & Hle & ->).
    split_and!; [done|done|].
    intros Hlt. destruct (of_Z_exact (decimal_value s)) as [Hfin Hval]; [done|].
    split; [|done]. by exists (decimal_value s).
Qed.

Lemma tidyRow_years_values_witness :
  let row : raw_row := {[ js "DEPT" := js "Arts"; js "2019-20" := js "12";
                          js "2020-21" := js "n/a" ]} in
  ∃ s, row !! js "2019-20" = Some s ∧
       12%float = Num.or_zero (Num.StringToNumber s) ∧
       is_nan 12%float = false ∧
       (is_nan (Num.StringToNumber s) = true → 12%float = 0%float) ∧
       (Str.trim s = [] → 12%float = 0%float) ∧
       (s ≠ [] → forallb Str.is_digit s = true →
          12%float = Num.of_Z (decimal_value s) ∧
          (0 <=? 12)%float = true ∧
          ((decimal_value s < 2 ^ 53)%Z →
             nonneg_integer 12%float ∧ (Num.to_Q 12%float == inject_Z (decimal_value s))%Q)).
Proof.
  intros row. apply (tidyRow_years_values row (js "2019-20") 12%float).
  by vm_compute.
Defined.

(** ** The export and its way back through the normalizer *)

(** With no delimiter in the unquoted columns the export reads back with
    the counts it was written from. *)
Example export_roundtrip_arts (toLowerCase : jsstring → jsstring) :
  years <$> parseCsvText (export_all toLowerCase [arts_record]) = [years arts_record] ∧
  title <$> parseCsvText (export_all toLowerCase [arts_record]) = [js "Glass, stained"].
Proof. split; by vm_compute. Qed.

(** C2 at a department name with a comma: the export writes the name
    without quotes, the line reads back with one field more than the header
    has columns, every later column takes the field of its left neighbour,
    and the year columns come back with other counts than were exported:
    2022-23 was 12 and reads 0 (from the field [No]), 2023-24 was 7 and
    reads 12. *)
Theorem export_unquoted_dept (toLowerCase : jsstring → jsstring) :
  let text := export_all toLowerCase [media_record] in
  allYears [media_record] = [js "2022-23"; js "2023-24"] ∧
  text =
    Str.join [Papa.newline]
      [Str.join (js ",") (csv_header [js "2022-23"; js "2023-24"]);
       Str.join (js ",") [js "Arts, Media"; js "A1"; quoted (js "Glass"); quoted (js "AA");
                          js "19"; js "9.50"; js "No"; js "12"; js "7"]] ∧
  Papa.scan true false text =
    [csv_header [js "2022-23"; js "2023-24"];
     [js "Arts"; js " Media"; js "A1"; js "Glass"; js "AA"; js "19"; js "9.50"; js "No";
      js "12"; js "7"]] ∧
  dept <$> parseCsvText text = [js "Arts"] ∧
  years media_record !! js "2022-23" = Some 12%float ∧
  years media_record !! js "2023-24" = Some 7%float ∧
  (λ r, years r !! js "2022-23") <$> parseCsvText text = [Some 0%float] ∧
  (λ r, years r !! js "2023-24") <$> parseCsvText text = [Some 12%float].
Proof.
  cbv zeta. split_and!; by vm_compute.
Qed.

(** * Further properties of the component *)

(** ** The year index *)

Lemma strictly_ascending_NoDup (l : list jsstring) : strictly_ascending l → NoDup l.
Proof.
  induction 1 as [|x l _ IH Hall]; constructor; [|done].
  intros Hin. rewrite Forall_forall in Hall.
  specialize (Hall x Hin). by rewrite ltb_irrefl in Hall.
Qed.

Lemma strictly_ascending_unique (l1 l2 : list jsstring) :
  strictly_ascending l1 → strictly_ascending l2 →
  (∀ k, k ∈ l1 ↔ k ∈ l2) → l1 = l2.
Proof.
  intros H1 H2 Heq.
  assert (Hanti : AntiSymm (=) (λ a b, Str.ltb a b = true)).
  { intros a b Hab Hba. by rewrite (ltb_asym a b Hab) in Hba. }
  apply (StronglySorted_unique (λ a b, Str.ltb a b = true)); try done.
  apply NoDup_Permutation; auto using strictly_ascending_NoDup.
Qed.

Lemma allYears_strictly_ascending (rows : list record) :
  strictly_ascending (allYears rows).
Proof.
  apply StronglySorted_strict; [apply allYears_sorted|apply NoDup_allYears].
Qed.

(** X1: the year index lists exactly the labels some record has a count
    for, each once, in strictly ascending order of their code units. *)
Theorem allYears_index (rows : list record) :
  (∀ k, k ∈ allYears rows ↔ ∃ r, r ∈ rows ∧ is_Some (years r !! k)) ∧
  NoDup (allYears rows) ∧
  strictly_ascending (allYears rows).
Proof.
  split_and!.
  - apply elem_of_allYears.
  - apply NoDup_allYears.
  - apply allYears_strictly_ascending.
Qed.

(** X2: two record sets with the same labels have the same year index,
    whatever the order of the records and of the columns. *)
Theorem allYears_same_labels (rows1 rows2 : list record)
    (Hsame : ∀ k, (∃ r, r ∈ rows1 ∧ is_Some (years r !! k)) ↔
                  (∃ r, r ∈ rows2 ∧ is_Some (years r !! k))) :
  allYears rows1 = allYears rows2.
Proof.
  apply strictly_ascending_unique; try apply allYears_strictly_ascending.
  intros k. by rewrite !elem_of_allYears.
Qed.

Lemma allYears_same_labels_witness :
  allYears [scenario_record; other_record] = allYears [other_record; scenario_record].
Proof.
  apply allYears_same_labels. intros k. split.
  - intros (r & Hr & Hk). exists r. split; [|done].
    apply elem_of_cons in Hr as [->|Hr]; [by right; left|].
    apply list_elem_of_singleton in Hr as ->. by left.
  - intros (r & Hr & Hk). exists r. split; [|done].
    apply elem_of_cons in Hr as [->|Hr]; [by right; left|].
    apply list_elem_of_singleton in Hr as ->. by left.
Defined.

(** ** The default range and the visible years *)





(** The slice [visibleYears] takes, with the parts of the index around
    it. *)
Lemma slice_split {A} (from to : index) (l : list A) :
  ∃ pre post, l = pre ++ Arr.slice from to l ++ post.
Proof.
  unfold Arr.slice.
  exists (take (Arr.clamp (length l) from) l),
         (drop (Arr.clamp (length l) to - Arr.clamp (length l) from)
               (drop (Arr.clamp (length l) from) l)).
  by rewrite !take_drop.
Qed.

(** X4: the visible years are a run of consecutive labels of the index,
    and when both range ends are labels of the index the run holds both. *)
Theorem visibleYears_run (idx : list jsstring) (s e : jsstring)
    (Hs : s ∈ idx) (He : e ∈ idx) :
  (∃ pre post, idx = pre ++ visibleYears idx (Some s) (Some e) ++ post) ∧
  s ∈ visibleYears idx (Some s) (Some e) ∧
  e ∈ visibleYears idx (Some s) (Some e).
Proof.
  unfold visibleYears.
  destruct (_ || _ || _).
  { split_and!; [by exists [], []; rewrite app_nil_r|done|done]. }
  set (i0 := Arr.indexOf (Some <$> idx) (Some s)).
  set (i1 := Arr.indexOf (Some <$> idx) (Some e)).
  assert (Hi0 : i0 ≠ (-1)%Z).
  { unfold i0. rewrite indexOf_absent. intros H. apply H. by apply list_elem_of_fmap_2. }
  assert (Hi1 : i1 ≠ (-1)%Z).
  { unfold i1. rewrite indexOf_absent. intros H. apply H. by apply list_elem_of_fmap_2. }
  pose proof (indexOf_bounds (Some <$> idx) (Some s)) as B0.
  pose proof (indexOf_bounds (Some <$> idx) (Some e)) as B1.
  rewrite length_fmap in B0, B1. fold i0 in B0. fold i1 in B1.
  assert (L0 : idx !! Z.to_nat i0 = Some s).
  { pose proof (indexOf_lookup (Some <$> idx) (Some s)) as H. fold i0 in H.
    rewrite list_lookup_fmap in H. specialize (H ltac:(lia)).
    destruct (idx !! Z.to_nat i0); simpl in H; congruence. }
  assert (L1 : idx !! Z.to_nat i1 = Some e).
  { pose proof (indexOf_lookup (Some <$> idx) (Some e)) as H. fold i1 in H.
    rewrite list_lookup_fmap in H. specialize (H ltac:(lia)).
    destruct (idx !! Z.to_nat i1); simpl in H; congruence. }
  destruct (Z.eqb_spec i0 (-1)); [done|]. destruct (Z.eqb_spec i1 (-1)); [done|].
  cbn [orb].
  assert (Hin : ∀ lo hi i x, (0 ≤ lo ≤ i)%Z → (i ≤ hi)%Z → (hi < Z.of_nat (length idx))%Z →
                 idx !! Z.to_nat i = Some x → x ∈ Arr.slice lo (hi + 1)%Z idx).
  { intros lo hi i x Hlo Hhi Hlen Hx. unfold Arr.slice, Arr.clamp.
    destruct (Z.ltb_spec lo 0); [lia|]. destruct (Z.ltb_spec (hi + 1) 0); [lia|].
    apply elem_of_take. exists (Z.to_nat i - Z.to_nat lo)%nat. split; [|lia].
    rewrite lookup_drop. rewrite <- Hx. f_equal. lia. }
  destruct (Z.leb_spec i0 i1).
  - split_and!; [apply slice_split| |].
    + apply (Hin i0 i1 i0 s); [lia|lia|lia|done].
    + apply (Hin i0 i1 i1 e); [lia|lia|lia|done].
  - split_and!; [apply slice_split| |].
    + apply (Hin i1 i0 i0 s); [lia|lia|lia|done].
    + apply (Hin i1 i0 i1 e); [lia|lia|lia|done].
Qed.

Lemma visibleYears_run_witness :
  (∃ pre post, scenario_years =
     pre ++ visibleYears scenario_years (Some (js "2022-23")) (Some (js "2020-21")) ++ post) ∧
  js "2022-23" ∈ visibleYears scenario_years (Some (js "2022-23")) (Some (js "2020-21")) ∧
  js "2020-21" ∈ visibleYears scenario_years (Some (js "2022-23")) (Some (js "2020-21")).
Proof.
  apply visibleYears_run.
  - do 3 right. left.
  - right. left.
Defined.

(** ** More on the assessor *)

(** X5: the assessment reads the index and the record only through the
    last five labels and the record's counts for them: two indexes with the
    same last five labels, and two records with the same counts there, get
    the same flag and the same reason. *)
Theorem assessRecDeact_last_five_only (row1 row2 : record) (idx1 idx2 : list jsstring)
    (Hlabels : last_labels 5 idx1 = last_labels 5 idx2)
    (Hcounts : ∀ y, y ∈ last_labels 5 idx1 → count_of row1 y = count_of row2 y) :
  assessRecDeact row1 idx1 = assessRecDeact row2 idx2.
Proof.
  unfold last_labels in *. rewrite <- !slice_from_last5 in *.
  unfold assessRecDeact. rewrite <- Hlabels.
  destruct (Arr.slice_from (-5)%Z idx1) as [|y0 rest]; [done|].
  assert (Hst : last5_stats row1 y0 rest = last5_stats row2 y0 rest).
  { unfold last5_stats.
    assert ((λ y, year_or_zero (years row1) y) <$> y0 :: rest =
            (λ y, year_or_zero (years row2) y) <$> y0 :: rest) as Hv.
    { apply list_fmap_ext. intros i y Hy. rewrite !year_or_zero_count.
      apply Hcounts. by eapply list_elem_of_lookup_2. }
    by rewrite Hv. }
  by rewrite Hst.
Qed.

Lemma assessRecDeact_last_five_only_witness :
  assessRecDeact other_record
    [js "2017-18"; js "2018-19"; js "2019-20"; js "2020-21"; js "2022-23"; js "2023-24"]
  = assessRecDeact scenario_record
      [js "2018-19"; js "2019-20"; js "2020-21"; js "2022-23"; js "2023-24"].
Proof.
  apply assessRecDeact_last_five_only.
  - reflexivity.
  - intros y Hy. vm_compute in Hy.
    repeat (apply elem_of_cons in Hy as [->|Hy]; [by vm_compute|]).
    by apply elem_of_nil in Hy.
Defined.

Lemma js_app_nonempty (c : ascii) (s : string) (x : jsstring) :
  js (String c s) ++ x ≠ [].
Proof. done. Qed.

Lemma join_nonempty (sep p : jsstring) (ps : list jsstring) :
  p ≠ [] → Str.join sep (p :: ps) ≠ [].
Proof.
  intros Hp. destruct p as [|c p]; [done|]. by destruct ps.
Qed.

(** X6: the reason of an assessment is never the empty string, flagged or
    not, on any record and index. *)
Theorem reason_always_populated (row : record) (idx : list jsstring) :
  reason (assessRecDeact row idx) ≠ [].
Proof.
  unfold assessRecDeact.
  destruct (Arr.slice_from (-5)%Z idx) as [|y0 rest]; [done|].
  destruct ((total5 _ <? _)%float && (avg5 _ <? _)%float) eqn:H1,
           (bool_decide (3 ≤ zeros _)%nat) eqn:H2,
           (peak _ <? _)%float eqn:H3;
    cbn [orb flag reason app]; try (by apply join_nonempty); done.
Qed.

(** ** More on the pipeline *)

Section MorePipelineFacts.
Variable toLowerCase : jsstring → jsstring.

Lemma elem_of_before_sort_iff (p : Params.t) (rows : list record)
    (visible idx : list jsstring) (x : view_row) :
  x ∈ before_sort toLowerCase p rows visible idx ↔
  ∃ r, r ∈ rows ∧ passes toLowerCase p r ∧ x = attach visible idx r ∧
       (Params.recDeactOnly p = true → recDeact x = true).
Proof.
  unfold before_sort, passes. cbv zeta.
  set (kept := if decide (Str.trim (Params.q p) = []) then _ else _).
  assert (Hkept : ∀ r, r ∈ kept ↔ r ∈ rows ∧
            (Params.dept p = js "All" ∨ dept r = Params.dept p) ∧
            (Params.award p = js "All" ∨ award r = Params.award p) ∧
            (Str.trim (Params.q p) = [] ∨
             matches_keyword toLowerCase (toLowerCase (Params.q p)) r = true)).
  { intros r. subst kept.
    destruct (decide (Str.trim (Params.q p) = [])),
             (decide (Params.award p = js "All")),
             (decide (Params.dept p = js "All"));
      rewrite ?list_elem_of_filter; tauto. }
  destruct (Params.recDeactOnly p).
  - rewrite list_elem_of_filter, list_elem_of_fmap. split.
    + intros (Hflag & r & -> & Hr). apply Hkept in Hr as (? & ? & ? & ?).
      exists r. by split_and!.
    + intros (r & Hr & (? & ? & ?) & -> & Hflag). split; [by apply Hflag|].
      exists r. split; [done|]. apply Hkept. by split_and!.
  - rewrite list_elem_of_fmap. split.
    + intros (r & -> & Hr). apply Hkept in Hr as (? & ? & ? & ?).
      exists r. by split_and!.
    + intros (r & Hr & (? & ? & ?) & -> & _).
      exists r. split; [done|]. apply Hkept. by split_and!.
Qed.

Lemma filtered_all (p : Params.t) (rows : list record) (visible idx : list jsstring) :
  Params.topN p = js "All" →
  filtered toLowerCase p rows visible idx =
    sort_rows (Params.sortKey p) (Params.sortDir p)
      (before_sort toLowerCase p rows visible idx).
Proof.
  intros Hall. unfold filtered. cbv zeta. rewrite decide_True by done.
  apply slice_all.
Qed.

End MorePipelineFacts.

(** X7: every row of the output is a record of the input that passes the
    department, award and keyword filters, carries its computed columns and
    is flagged when only flagged rows are asked for; with top-N at [All] the
    output holds every such row. *)
Theorem filtered_rows (toLowerCase : jsstring → jsstring) (p : Params.t)
    (rows : list record) (visible idx : list jsstring) (x : view_row) :
  (x ∈ filtered toLowerCase p rows visible idx →
     ∃ r, r ∈ rows ∧ passes toLowerCase p r ∧ x = attach visible idx r ∧
          (Params.recDeactOnly p = true → recDeact x = true)) ∧
  (Params.topN p = js "All" →
     (∃ r, r ∈ rows ∧ passes toLowerCase p r ∧ x = attach visible idx r ∧
           (Params.recDeactOnly p = true → recDeact x = true)) →
     x ∈ filtered toLowerCase p rows visible idx).
Proof.
  split.
  - unfold filtered. intros Hx. apply elem_of_slice in Hx.
    unfold sort_rows in Hx. apply elem_of_sort in Hx.
    by apply elem_of_before_sort_iff.
  - intros Hall Hx. rewrite (filtered_all toLowerCase p rows visible idx Hall).
    unfold sort_rows. apply elem_of_sort. by apply elem_of_before_sort_iff.
Qed.

(** Below [2^53] the double of a non-negative integer truncates to the
    integer. *)
Lemma ToIntegerOrInfinity_of_Z (z : Z) :
  (0 ≤ z < 2 ^ 53)%Z → Num.ToIntegerOrInfinity (Num.of_Z z) = Index z.
Proof.
  intros [Hz0 Hz]. destruct z as [|n|n]; [by vm_compute| |lia].
  destruct (round_pos_integer_exact false n Hz) as (m & e & Hr & He & Hm).
  unfold Num.ToIntegerOrInfinity. rewrite Prim2SF_of_Z_pos, Hr. f_equal.
  assert (Hpe : (0 < 2 ^ (- e))%Z) by (apply Z.pow_pos_nonneg; lia).
  destruct (Z.leb_spec 0 e).
  - assert (e = 0%Z) as -> by lia. simpl in *. lia.
  - rewrite Hm. apply Z.div_mul. lia.
Qed.

Lemma slice_take {A} (n : Z) (l : list A) :
  (0 ≤ n)%Z → Arr.slice 0%Z n l = take (Z.to_nat n) l.
Proof.
  intros Hn. unfold Arr.slice.
  change (Arr.clamp (length l) 0%Z) with 0%nat.
  unfold Arr.clamp. destruct (Z.ltb_spec n 0); [lia|].
  rewrite Nat.sub_0_r, drop_0.
  destruct (decide (Z.to_nat n ≤ length l)%nat).
  - by rewrite Nat.min_l.
  - rewrite Nat.min_r by lia. rewrite firstn_all. symmetry. apply take_ge. lia.
Qed.

(** X8: with a numeral as top-N the output is the first N rows of the
    sorted rows, so it has at most N rows, and all of the sorted rows in
    their order when N is at least their number. *)
Theorem filtered_top_n (toLowerCase : jsstring → jsstring) (p : Params.t)
    (rows : list record) (visible idx : list jsstring)
    (Hsome : Params.topN p ≠ [])
    (Hdigits : forallb Str.is_digit (Params.topN p) = true)
    (Hsmall : (decimal_value (Params.topN p) < 2 ^ 53)%Z) :
  let n := Z.to_nat (decimal_value (Params.topN p)) in
  let sorted := sort_rows (Params.sortKey p) (Params.sortDir p)
                  (before_sort toLowerCase p rows visible idx) in
  filtered toLowerCase p rows visible idx = take n sorted ∧
  (length (filtered toLowerCase p rows visible idx) ≤ n)%nat ∧
  ((length sorted ≤ n)%nat → filtered toLowerCase p rows visible idx = sorted).
Proof.
  intros n sorted.
  assert (Hz : (0 ≤ decimal_value (Params.topN p))%Z)
    by (by apply decimal_value_from_nonneg).
  assert (Heq : filtered toLowerCase p rows visible idx = take n sorted).
  { unfold filtered. cbv zeta. fold sorted.
    rewrite decide_False by (intros Heq; rewrite Heq in Hdigits; by vm_compute in Hdigits).
    rewrite (StringToNumber_digits _ Hsome Hdigits), ToIntegerOrInfinity_of_Z by lia.
    by apply slice_take. }
  rewrite Heq. split_and!; [done| |].
  - rewrite length_take. lia.
  - intros Hlen. by apply take_ge.
Qed.

Lemma filtered_top_n_witness :
  let p := with_topN (js "5") default_params in
  let rows := [other_record; media_record; arts_record] in
  let idx := allYears rows in
  let sorted := sort_rows (Params.sortKey p) (Params.sortDir p)
                  (before_sort lower_ascii p rows idx idx) in
  filtered lower_ascii p rows idx idx = take 5 sorted ∧
  (length (filtered lower_ascii p rows idx idx) ≤ 5)%nat ∧
  ((length sorted ≤ 5)%nat → filtered lower_ascii p rows idx idx = sorted).
Proof.
  intros p rows idx sorted.
  apply (filtered_top_n lower_ascii p rows idx idx); [discriminate|reflexivity|].
  by vm_compute.
Defined.

Lemma filter_all {A} (P : A → Prop) `{!∀ x, Decision (P x)} (l : list A) :
  (∀ x, x ∈ l → P x) → filter P l = l.
Proof.
  induction l as [|x l IH]; intros Hall; [done|].
  rewrite filter_cons, decide_True by (apply Hall; by left).
  f_equal. apply IH. intros y Hy. apply Hall. by right.
Qed.

(** X9: a sort on a key for which all rows have the same value leaves the
    rows as they are; so does a sort by a year for which no row has a
    count. *)
Theorem sort_rows_all_ties (sortKey sortDir : jsstring) (out : list view_row)
    (Hties : ∀ x y, x ∈ out → y ∈ out → getVal sortKey x = getVal sortKey y) :
  sort_rows sortKey sortDir out = out.
Proof.
  destruct out as [|x0 out]; [done|].
  set (P := λ r, getVal sortKey r = getVal sortKey x0).
  assert (Hstable : filter P (sort_rows sortKey sortDir (x0 :: out)) = filter P (x0 :: out)).
  { unfold sort_rows. apply filter_sort. intros x y Hx Hy.
    apply compare_rows_equal_keys. unfold P in *. congruence. }
  rewrite !filter_all in Hstable; [done| |].
  - intros x Hx. apply Hties; [done|by left].
  - intros x Hx. unfold sort_rows in Hx. apply elem_of_sort in Hx.
    apply Hties; [done|by left].
Qed.

Lemma sort_rows_all_ties_witness :
  let rows := [other_record; media_record; arts_record] in
  let out := before_sort lower_ascii default_params rows (allYears rows) (allYears rows) in
  sort_rows (js "2030-31") (js "desc") out = out.
Proof.
  intros rows out. apply sort_rows_all_ties. intros x y Hx Hy.
  vm_compute in Hx, Hy.
  repeat (apply elem_of_cons in Hx as [->|Hx]);
    repeat (apply elem_of_cons in Hy as [->|Hy]);
    try (by apply elem_of_nil in Hx); try (by apply elem_of_nil in Hy);
    by vm_compute.
Defined.




(** ** The drop-down lists *)

Lemma elem_of_uniq (arr : list jsstring) (d : jsstring) :
  d ∈ uniq arr ↔ d ≠ [] ∧ d ∈ arr.
Proof.
  unfold uniq. rewrite elem_of_add_all, list_elem_of_filter, elem_of_nil. tauto.
Qed.

Lemma NoDup_uniq (arr : list jsstring) : NoDup (uniq arr).
Proof. apply NoDup_add_all, NoDup_nil_2. Qed.

Lemma sorted_uniq (arr : list jsstring) :
  let ds := Arr.sort Str.ltb (uniq arr) in
  NoDup ds ∧ strictly_ascending ds ∧ ∀ d, d ∈ ds ↔ d ≠ [] ∧ d ∈ arr.
Proof.
  intros ds. assert (Hnd : NoDup ds).
  { subst ds. rewrite sort_perm. apply NoDup_uniq. }
  split_and!; [done| |].
  - apply StronglySorted_strict; [|done]. apply sort_sorted, ltb_asym.
  - intros d. subst ds. by rewrite elem_of_sort, elem_of_uniq.
Qed.

(** X11: each drop-down list opens with [All] and goes on with the
    non-empty departments (awards) of the records, each once, in strictly
    ascending order. *)
Theorem dropdown_entries (rows : list record) :
  (∃ ds, allDepts rows = js "All" :: ds ∧ NoDup ds ∧ strictly_ascending ds ∧
         ∀ d, d ∈ ds ↔ d ≠ [] ∧ ∃ r, r ∈ rows ∧ dept r = d) ∧
  (∃ aws, allAwards rows = js "All" :: aws ∧ NoDup aws ∧ strictly_ascending aws ∧
          ∀ a, a ∈ aws ↔ a ≠ [] ∧ ∃ r, r ∈ rows ∧ award r = a).
Proof.
  split.
  - destruct (sorted_uniq (dept <$> rows)) as (Hnd & Hs & Hin).
    eexists. split_and!; [done|done|done|].
    intros d. rewrite Hin, list_elem_of_fmap. split.
    + intros [? (r & -> & ?)]. split; [done|by exists r].
    + intros [? (r & ? & <-)]. split; [done|by exists r].
  - destruct (sorted_uniq (award <$> rows)) as (Hnd & Hs & Hin).
    eexists. split_and!; [done|done|done|].
    intros a. rewrite Hin, list_elem_of_fmap. split.
    + intros [? (r & -> & ?)]. split; [done|by exists r].
    + intros [? (r & ? & <-)]. split; [done|by exists r].
Qed.

(** ** More on the normalizer *)

Lemma record_eq (r1 r2 : record) :
  dept r1 = dept r2 → code r1 = code r2 → title r1 = title r2 →
  award r1 = award r2 → years r1 = years r2 → r1 = r2.
Proof. destruct r1, r2. simpl. by intros -> -> -> -> ->. Qed.

(** X12: the normalizer reads a row only through the four named columns
    and the year columns: two rows that agree on those give the same record,
    whatever other columns (a totals column, say) they hold. *)
Theorem tidyRow_reads_only_its_columns (row1 row2 : raw_row)
    (Hagree : ∀ k, k ∈ named_columns ∨ year_pattern_test k = true →
                   row1 !! k = row2 !! k) :
  tidyRow row1 = tidyRow row2.
Proof.
  assert (Htext : ∀ name, name ∈ named_columns →
            text_field row1 name = text_field row2 name).
  { intros name Hn. unfold text_field. rewrite Hagree; [done|by left]. }
  apply record_eq.
  - apply Htext. unfold named_columns. set_solver.
  - apply Htext. unfold named_columns. set_solver.
  - apply Htext. unfold named_columns. set_solver.
  - apply Htext. unfold named_columns. set_solver.
  - apply map_eq. intros k. rewrite !tidyRow_years_lookup.
    destruct (year_pattern_test k) eqn:Hk; [|done].
    rewrite Hagree; [done|by right].
Qed.

Lemma tidyRow_reads_only_its_columns_witness :
  tidyRow (<[js "TOTAL" := js "99"]> {[ js "DEPT" := js "Arts"; js "2019-20" := js "12" ]})
  = tidyRow {[ js "DEPT" := js "Arts"; js "2019-20" := js "12" ]}.
Proof.
  apply tidyRow_reads_only_its_columns. intros k Hk.
  apply lookup_insert_ne. intros <-.
  destruct Hk as [Hk|Hk]; [|by vm_compute in Hk].
  unfold named_columns in Hk.
  repeat (apply elem_of_cons in Hk as [Hk|Hk]; [discriminate|]).
  by apply elem_of_nil in Hk.
Defined.

Lemma trimEnd_cons (c : N) (t : jsstring) :
  Str.trimEnd (c :: t) =
    match Str.trimEnd t with
    | [] => if Str.is_space c then [] else [c]
    | t' => c :: t'
    end.
Proof. done. Qed.

Lemma trimEnd_idem (s : jsstring) : Str.trimEnd (Str.trimEnd s) = Str.trimEnd s.
Proof.
  induction s as [|c s IH]; [done|]. rewrite trimEnd_cons.
  destruct (Str.trimEnd s) as [|d u] eqn:Hu.
  - destruct (Str.is_space c) eqn:Hc; [done|]. rewrite trimEnd_cons. simpl. by rewrite Hc.
  - rewrite trimEnd_cons, IH. done.
Qed.

Lemma trimStart_head (s : jsstring) :
  Str.trimStart s = [] ∨ ∃ c t, Str.trimStart s = c :: t ∧ Str.is_space c = false.
Proof.
  induction s as [|c s IH]; simpl; [by left|].
  destruct (Str.is_space c) eqn:Hc; [done|]. right. by exists c, s.
Qed.

Lemma trimEnd_head (c : N) (t : jsstring) :
  Str.is_space c = false → ∃ t', Str.trimEnd (c :: t) = c :: t'.
Proof.
  intros Hc. simpl. destruct (Str.trimEnd t); [rewrite Hc|]; by eexists.
Qed.

Lemma trim_idem (s : jsstring) : Str.trim (Str.trim s) = Str.trim s.
Proof.
  unfold Str.trim.
  destruct (trimStart_head s) as [->|(c & t & -> & Hc)]; [done|].
  destruct (trimEnd_head c t Hc) as [t' Ht']. rewrite Ht'.
  simpl Str.trimStart. rewrite Hc, <- Ht'. apply trimEnd_idem.
Qed.

(** X13: the four text fields of a normalized record carry no white space
    at either end: trimming them again changes nothing. *)
Theorem tidyRow_fields_trimmed (row : raw_row) :
  let r := tidyRow row in
  Str.trim (dept r) = dept r ∧ Str.trim (code r) = code r ∧
  Str.trim (title r) = title r ∧ Str.trim (award r) = award r.
Proof.
  simpl. unfold text_field. by rewrite !trim_idem.
Qed.

(** ** The order of the output *)










(** ** The keys of the table rows *)

Lemma js_cons (c : ascii) (s : string) : js (String c s) = N_of_ascii c :: js s.
Proof. done. Qed.

Lemma js_inj (s1 s2 : string) : js s1 = js s2 → s1 = s2.
Proof.
  revert s2. induction s1 as [|c s1 IH]; intros [|d s2]; try done.
  rewrite !js_cons. intros [= Hc Hs].
  f_equal; [|by apply IH].
  by rewrite <- (ascii_N_embedding c), <- (ascii_N_embedding d), Hc.
Qed.

Lemma pretty_N_char_digit (x : N) : Str.is_digit (N_of_ascii (pretty_N_char x)) = true.
Proof. unfold pretty_N_char. by repeat case_match. Qed.

Lemma pretty_N_go_digits (x : N) (s : string) :
  forallb Str.is_digit (js s) = true →
  forallb Str.is_digit (js (pretty_N_go x s)) = true.
Proof.
  revert s. induction (N.lt_wf_0 x) as [x _ IH]; intros s Hs.
  assert (x = 0 ∨ 0 < x)%N as [->|Hx] by lia; [by rewrite pretty_N_go_0|].
  rewrite pretty_N_go_step by done. apply IH.
  - apply N.div_lt; lia.
  - rewrite js_cons. simpl. by rewrite pretty_N_char_digit, Hs.
Qed.

Lemma pretty_nat_digits (n : nat) : forallb Str.is_digit (js (pretty n)) = true.
Proof.
  unfold pretty, pretty_nat, pretty, pretty_N. case_decide; [done|].
  by apply pretty_N_go_digits.
Qed.

Lemma after_last_dash_skip (a x cur : jsstring) :
  after_last_dash cur (a ++ js "-" ++ x) = after_last_dash x x.
Proof.
  revert cur. induction a as [|c a IH]; intros cur; simpl; [done|].
  destruct (c =? 45)%N; apply IH.
Qed.

Lemma after_last_dash_digits (s cur : jsstring) :
  forallb Str.is_digit s = true → after_last_dash cur s = cur.
Proof.
  revert cur. induction s as [|c s IH]; intros cur; simpl; [done|].
  rewrite andb_true_iff. intros [Hc Hs].
  rewrite (digit_not_char c 45) by done. by apply IH.
Qed.

Lemma row_key_index (r : view_row) (i : nat) :
  after_last_dash (row_key r i) (row_key r i) = js (pretty i).
Proof.
  unfold row_key.
  rewrite (after_last_dash_skip (dept (base r)) (code (base r) ++ js "-" ++ js (pretty i))).
  rewrite (after_last_dash_skip (code (base r)) (js (pretty i))).
  apply after_last_dash_digits, pretty_nat_digits.
Qed.

(** X15: the keys of the table rows are pairwise distinct, whatever the
    departments and codes are, repeated or with dashes in them. *)
Theorem row_keys_distinct (out : list view_row) : NoDup (row_keys out).
Proof.
  unfold row_keys. apply NoDup_alt. intros i j k Hi Hj.
  apply list_lookup_imap_Some in Hi as (ri & _ & ->).
  apply list_lookup_imap_Some in Hj as (rj & _ & Heq).
  apply (f_equal (λ s, after_last_dash s s)) in Heq.
  rewrite !row_key_index in Heq. apply js_inj in Heq. by apply (inj pretty) in Heq.
Qed.

(** ** Sums of integer counts *)

Lemma iter_pos_nat {A} (f : A → A) (p : positive) (x : A) :
  @SpecFloat.iter_pos A f p x = Nat.iter (Pos.to_nat p) f x.
Proof.
  revert x. induction p as [p IH|p IH|]; intros x.
  - cbn [SpecFloat.iter_pos]. rewrite !IH.
    replace (Pos.to_nat p~1) with (Pos.to_nat p + Pos.to_nat p + 1)%nat by lia.
    rewrite !Nat.iter_add. done.
  - cbn [SpecFloat.iter_pos]. rewrite !IH.
    replace (Pos.to_nat p~0) with (Pos.to_nat p + Pos.to_nat p)%nat by lia.
    by rewrite Nat.iter_add.
  - done.
Qed.

(** Shifting out bits that are all 0 is exact. *)
Lemma shr_exact (n : nat) (q : positive) :
  Nat.iter n shr_1 {| shr_m := Zpos q * 2 ^ Z.of_nat n; shr_r := false; shr_s := false |} =
  {| shr_m := Zpos q; shr_r := false; shr_s := false |}.
Proof.
  induction n as [|n IH].
  - change (Z.of_nat 0) with 0%Z. by rewrite Z.pow_0_r, Z.mul_1_r.
  - rewrite Nat.iter_succ_r.
    assert (Hpos : (0 < Zpos q * 2 ^ Z.of_nat n)%Z).
    { apply Z.mul_pos_pos; [lia|]. apply Z.pow_pos_nonneg; lia. }
    destruct (Zpos q * 2 ^ Z.of_nat n)%Z as [|k|k] eqn:Hk; [lia| |lia].
    replace (Zpos q * 2 ^ Z.of_nat (S n))%Z with (Zpos k~0).
    2: { rewrite Nat2Z.inj_succ, Z.pow_succ_r by lia. lia. }
    simpl shr_1. rewrite <- Hk in *. exact IH.
Qed.

Lemma shift_left_value (m d : positive) :
  Zpos (Pos.iter xO m d) = (Zpos m * 2 ^ Zpos d)%Z.
Proof.
  change (Pos.iter xO m d) with (shift_pos d m).
  rewrite shift_pos_correct. change (Z.pow_pos 2 d) with (2 ^ Zpos d)%Z. lia.
Qed.

Lemma digits_shift (m : positive) (k : Z) (p : positive) :
  (0 ≤ k)%Z → Zpos p = (Zpos m * 2 ^ k)%Z →
  Zpos (digits2_pos p) = (Zpos (digits2_pos m) + k)%Z.
Proof.
  intros Hk Hp. rewrite !digits2_pos_log2, Hp, Z.log2_mul_pow2 by lia. lia.
Qed.

(** Rounding a mantissa and an exponent whose value a double holds gives
    that double: with the value [q * 2^e'] for a mantissa [q] of 53 bits
    and [e'] above the least exponent, whatever exponent [e] the value is
    written with. *)
Lemma binary_round_exact (s : bool) (m : positive) (e : Z) (q : positive) (e' : Z) :
  (2 ^ 52 ≤ Zpos q < 2 ^ 53)%Z → (-1074 ≤ e' ≤ 971)%Z →
  ((e' ≤ e)%Z ∧ Zpos q = (Zpos m * 2 ^ (e - e'))%Z ∨
   (e < e')%Z ∧ Zpos m = (Zpos q * 2 ^ (e' - e))%Z) →
  binary_round prec emax s m e = S754_finite s q e'.
Proof.
  intros Hq He' Hcase.
  assert (Hdq : Zpos (digits2_pos q) = 53%Z).
  { rewrite digits2_pos_log2, (Z.log2_unique (Zpos q) 52); [done|lia|].
    change (Z.succ 52) with 53%Z. lia. }
  assert (Hfq : fexp prec emax (Zpos (digits2_pos q) + e') = e').
  { unfold fexp, SpecFloat.emin, prec, emax. rewrite Hdq. lia. }
  assert (Hfinal : binary_round_aux prec emax s (Zpos q) e' loc_Exact = S754_finite s q e').
  { unfold binary_round_aux, shr_fexp. cbn [Zdigits2 shr_record_of_loc].
    rewrite Hfq, Z.sub_diag. cbn [shr shr_m loc_of_shr_record round_nearest_even].
    cbn [Zdigits2 shr_record_of_loc]. rewrite Hfq, Z.sub_diag. cbn [shr shr_m].
    unfold prec, emax. destruct (Z.leb_spec e' (1024 - 53)); [done|lia]. }
  unfold binary_round.
  destruct Hcase as [[Hle Hv]|[Hlt Hv]].
  - assert (Hd : (Zpos (digits2_pos m) + e = Zpos (digits2_pos q) + e')%Z).
    { rewrite (digits_shift m (e - e') q); [lia|lia|done]. }
    rewrite Hd, Hfq. unfold shl_align.
    destruct (e' - e)%Z as [|d|d] eqn:Hd'.
    + assert (e = e') as -> by lia. rewrite Z.sub_diag, Z.mul_1_r in Hv.
      injection Hv as <-. exact Hfinal.
    + lia.
    + assert (Pos.iter xO m d = q) as ->.
      { apply Pos2Z.inj. rewrite shift_left_value, Hv. f_equal. f_equal. lia. }
      exact Hfinal.
  - assert (Hd : (Zpos (digits2_pos m) + e = Zpos (digits2_pos q) + e')%Z).
    { rewrite (digits_shift q (e' - e) m); [lia|lia|done]. }
    rewrite Hd, Hfq. unfold shl_align.
    destruct (e' - e)%Z as [|d|d] eqn:Hd'; [lia| |lia].
    unfold binary_round_aux, shr_fexp at 1. cbn [Zdigits2 shr_record_of_loc].
    rewrite Hd, Hfq, Hd'. cbn [shr]. rewrite iter_pos_nat, Hv.
    replace (Zpos d) with (Z.of_nat (Pos.to_nat d)) by lia.
    rewrite shr_exact. cbn [shr_m loc_of_shr_record round_nearest_even].
    replace (e + Z.of_nat (Pos.to_nat d))%Z with e' by lia.
    unfold shr_fexp. cbn [Zdigits2 shr_record_of_loc]. rewrite Hfq, Z.sub_diag.
    cbn [shr shr_m]. unfold prec, emax. destruct (Z.leb_spec e' (1024 - 53)); [done|lia].
Qed.

(** The double of a positive integer below [2^53]: a mantissa of 53 bits
    at the exponent that makes its value the integer. *)
Lemma round_pos_integer_form (s : bool) (n : positive) :
  (Zpos n < 2 ^ 53)%Z →
  ∃ q, Num.round_pos s n 1 = S754_finite s q (Z.log2 (Zpos n) - 52) ∧
       Zpos q = (Zpos n * 2 ^ (52 - Z.log2 (Zpos n)))%Z ∧
       (2 ^ 52 ≤ Zpos q < 2 ^ 53)%Z ∧ (0 ≤ Z.log2 (Zpos n) < 53)%Z.
Proof.
  intros Hn. unfold Num.round_pos. rewrite ilog2_integer.
  pose proof (Z.log2_nonneg (Zpos n)) as Hl0.
  pose proof (Z.log2_spec (Zpos n) ltac:(lia)) as [Hlo Hhi].
  assert (Hl52 : (Z.log2 (Zpos n) < 53)%Z) by (apply Z.log2_lt_pow2; lia).
  set (l := Z.log2 (Zpos n)) in *.
  rewrite Z.max_l by lia.
  set (e := (l - 52)%Z) in *.
  assert (Hpe : (0 < 2 ^ (- e))%Z) by (apply Z.pow_pos_nonneg; lia).
  assert (Hb : (2 ^ 52 ≤ Zpos n * 2 ^ (- e) < 2 ^ 53)%Z).
  { replace 52%Z with (l + - e)%Z at 1 by lia.
    replace 53%Z with (Z.succ l + - e)%Z by lia.
    rewrite !Z.pow_add_r by lia. split; nia. }
  assert (Hs : Num.round_half_even (Num.scaled n 1 e).1 (Num.scaled n 1 e).2 =
               (Zpos n * 2 ^ (- e))%Z).
  { unfold Num.scaled. destruct (Z.leb_spec 0 e); simpl.
    - assert (e = 0%Z) as -> by lia. simpl. rewrite round_half_even_1. lia.
    - apply round_half_even_1. }
  destruct (Num.scaled n 1 e) as [a b]. simpl in Hs. rewrite Hs.
  destruct (Z.eqb_spec (Zpos n * 2 ^ (- e)) (2 ^ 53)) as [Hm53|Hm53]; [lia|].
  destruct (Zpos n * 2 ^ (- e))%Z as [|p|p] eqn:Hmp; [lia| |lia].
  destruct (Z.leb_spec e 971); [|lia].
  exists p. replace (52 - l)%Z with (- e)%Z by lia. rewrite Hmp. split_and!; try done; lia.
Qed.

Lemma shl_align_value (q : positive) (e ez : Z) :
  (ez ≤ e)%Z → Zpos (shl_align q e ez).1 = (Zpos q * 2 ^ (e - ez))%Z.
Proof.
  intros Hle. unfold shl_align. destruct (ez - e)%Z as [|d|d] eqn:Hd.
  - assert (e = ez) as -> by lia. rewrite Z.sub_diag. simpl. lia.
  - lia.
  - simpl. rewrite shift_left_value. f_equal. f_equal. lia.
Qed.

(** The sum of two positive integers whose sum is below [2^53] is added
    without rounding. *)
Lemma SFadd_integers (na nb : positive) :
  (Zpos na + Zpos nb < 2 ^ 53)%Z →
  SF64add (Num.round_pos false na 1) (Num.round_pos false nb 1) =
  Num.round_pos false (na + nb) 1.
Proof.
  intros Hsum.
  destruct (round_pos_integer_form false na) as (qa & -> & Hqa & Hba & Hla); [lia|].
  destruct (round_pos_integer_form false nb) as (qb & -> & Hqb & Hbb & Hlb); [lia|].
  destruct (round_pos_integer_form false (na + nb)) as (qc & -> & Hqc & Hbc & Hlc);
    [lia|].
  set (ea := (Z.log2 (Zpos na) - 52)%Z) in *.
  set (eb := (Z.log2 (Zpos nb) - 52)%Z) in *.
  set (ec := (Z.log2 (Zpos (na + nb)) - 52)%Z) in *.
  replace (52 - Z.log2 (Zpos na))%Z with (- ea)%Z in Hqa by lia.
  replace (52 - Z.log2 (Zpos nb))%Z with (- eb)%Z in Hqb by lia.
  replace (52 - Z.log2 (Zpos (na + nb)))%Z with (- ec)%Z in Hqc by lia.
  unfold SF64add, SFadd. cbn [cond_Zopp].
  set (ez := Z.min ea eb).
  rewrite !shl_align_value by lia.
  assert (HM : (Zpos qa * 2 ^ (ea - ez) + Zpos qb * 2 ^ (eb - ez) =
                (Zpos na + Zpos nb) * 2 ^ (- ez))%Z).
  { rewrite Hqa, Hqb, <- !Z.mul_assoc, <- !Z.pow_add_r by lia.
    replace (- ea + (ea - ez))%Z with (- ez)%Z by lia.
    replace (- eb + (eb - ez))%Z with (- ez)%Z by lia. lia. }
  rewrite HM.
  assert (Hpz : (0 < 2 ^ (- ez))%Z) by (apply Z.pow_pos_nonneg; lia).
  destruct ((Zpos na + Zpos nb) * 2 ^ (- ez))%Z as [|m|m] eqn:Hm; [lia| |lia].
  cbn [binary_normalize].
  apply binary_round_exact; [done|lia|].
  rewrite Pos2Z.inj_add in Hqc.
  destruct (Z.le_gt_cases ec ez) as [Hle|Hgt].
  - left. split; [done|]. rewrite Hqc, <- Hm, <- Z.mul_assoc, <- Z.pow_add_r by lia.
    f_equal. f_equal. lia.
  - right. split; [lia|]. rewrite Hqc, <- Z.mul_assoc, <- Z.pow_add_r by lia.
    rewrite <- Hm. f_equal. f_equal. lia.
Qed.

(** Non-negative integers whose sum is below [2^53] add up without
    rounding. *)
Lemma add_of_Z (a b : Z) :
  (0 ≤ a)%Z → (0 ≤ b)%Z → (a + b < 2 ^ 53)%Z →
  (Num.of_Z a + Num.of_Z b)%float = Num.of_Z (a + b).
Proof.
  intros Ha Hb Hsum. apply Prim2SF_inj. rewrite add_spec.
  destruct a as [|na|na], b as [|nb|nb]; try lia.
  - done.
  - change (Num.of_Z 0) with 0%float. rewrite Prim2SF_zero.
    change (0 + Zpos nb)%Z with (Zpos nb). rewrite !Prim2SF_of_Z_pos.
    destruct (round_pos_integer_form false nb) as (q & -> & _); [lia|]. reflexivity.
  - change (Num.of_Z 0) with 0%float. rewrite Prim2SF_zero, Z.add_0_r.
    rewrite !Prim2SF_of_Z_pos.
    destruct (round_pos_integer_form false na) as (q & -> & _); [lia|]. reflexivity.
  - change (Zpos na + Zpos nb)%Z with (Zpos (na + nb)).
    rewrite !Prim2SF_of_Z_pos. by apply SFadd_integers.
Qed.

Lemma Zsum_nonneg (zs : list Z) : Forall (λ z, (0 ≤ z)%Z) zs → (0 ≤ Zsum zs)%Z.
Proof. induction 1; simpl; [done|]. unfold Zsum in *. simpl. lia. Qed.

Lemma fold_add_of_Z (zs : list Z) (a : Z) :
  (0 ≤ a)%Z → Forall (λ z, (0 ≤ z)%Z) zs → (a + Zsum zs < 2 ^ 53)%Z →
  fold_left PrimFloat.add (Num.of_Z <$> zs) (Num.of_Z a) = Num.of_Z (a + Zsum zs).
Proof.
  revert a. induction zs as [|z zs IH]; intros a Ha Hall Hsum.
  - simpl. unfold Zsum. simpl. by rewrite Z.add_0_r.
  - apply Forall_cons in Hall as [Hz Hall].
    pose proof (Zsum_nonneg zs Hall) as Hrest.
    change (Zsum (z :: zs)) with (z + Zsum zs)%Z in *.
    rewrite fmap_cons. cbn [fold_left].
    rewrite add_of_Z by lia. rewrite IH; [f_equal; lia|lia|done|lia].
Qed.

(** The binary64 sum of the doubles of non-negative integers is the double
    of their sum, as long as that is below [2^53]. *)
Lemma sum64_of_Z (zs : list Z) :
  Forall (λ z, (0 ≤ z)%Z) zs → (Zsum zs < 2 ^ 53)%Z →
  sum64 (Num.of_Z <$> zs) = Num.of_Z (Zsum zs).
Proof.
  intros Hall Hsum. unfold sum64. change 0%float with (Num.of_Z 0).
  by rewrite fold_add_of_Z.
Qed.

Lemma Zsum_cons (z : Z) (zs : list Z) : Zsum (z :: zs) = (z + Zsum zs)%Z.
Proof. done. Qed.

Lemma Zsum_perm (l1 l2 : list Z) : l1 ≡ₚ l2 → Zsum l1 = Zsum l2.
Proof.
  induction 1 as [|x l1 l2 _ IH|x y l|l1 l2 l3 _ IH1 _ IH2].
  - done.
  - by rewrite !Zsum_cons, IH.
  - rewrite !Zsum_cons. lia.
  - by rewrite IH1.
Qed.

(** The integers of a mapping summed along a duplicate-free list that
    holds all its keys: every integer once, and 0 for every other entry of
    the list. *)
Lemma Zsum_along_index (m : gmap jsstring Z) (idx : list jsstring) :
  NoDup idx → (∀ k, is_Some (m !! k) → k ∈ idx) →
  Zsum ((λ y, default 0%Z (m !! y)) <$> idx) = Zsum (map_to_list m).*2.
Proof.
  revert idx. induction m as [|k v m Hk IH] using map_ind; intros idx Hnd Hall.
  - rewrite map_to_list_empty. simpl.
    clear Hnd Hall. induction idx as [|y idx IHidx]; [done|].
    rewrite fmap_cons, Zsum_cons, IHidx, lookup_empty. done.
  - assert (Hin : k ∈ idx) by (apply Hall; rewrite lookup_insert_eq; by eexists).
    apply elem_of_Permutation in Hin as [idx' Hperm].
    rewrite (Zsum_perm _ _ (fmap_Permutation _ _ _ Hperm)).
    rewrite Hperm in Hnd. apply NoDup_cons in Hnd as [Hk' Hnd'].
    rewrite (Zsum_perm _ _ (fmap_Permutation snd _ _ (map_to_list_insert m k v Hk))).
    rewrite !fmap_cons, !Zsum_cons, lookup_insert_eq. simpl. f_equal.
    rewrite <- (IH idx' Hnd').
    + f_equal. apply list_fmap_ext. intros i y Hy.
      rewrite lookup_insert_ne; [done|].
      intros Heq. apply Hk'. rewrite Heq. by eapply list_elem_of_lookup_2.
    + intros y Hy. assert (y ≠ k) by (intros ->; rewrite Hk in Hy; by destruct Hy).
      assert (Hy' : y ∈ idx).
      { apply Hall. by rewrite lookup_insert_ne. }
      rewrite Hperm in Hy'. apply elem_of_cons in Hy' as [?|?]; done.
Qed.

(** A count that is the double of a non-negative integer is read as it
    is. *)
Lemma year_or_zero_of_Z (counts : gmap jsstring Z) (y : jsstring) :
  (∀ y z, counts !! y = Some z → (0 ≤ z)%Z) →
  year_or_zero (Num.of_Z <$> counts) y = Num.of_Z (default 0%Z (counts !! y)).
Proof.
  intros Hnonneg. unfold year_or_zero. rewrite lookup_fmap.
  destruct (counts !! y) as [z|] eqn:Hy; simpl; [|done].
  by destruct (of_Z_nonneg z (Hnonneg y z Hy)) as (_ & _ & ->).
Qed.

Lemma reduce_fmap {A} (f : A → float) (l : list A) (a : float) :
  Arr.reduce (λ sum y, (sum + f y)%float) a l = fold_left PrimFloat.add (f <$> l) a.
Proof.
  unfold Arr.reduce. revert a. induction l as [|x l IH]; intros a; simpl; [done|].
  apply IH.
Qed.

(** X16: for a record whose counts are non-negative integers with a sum
    below [2^53], the total over the full year index is that sum, without
    rounding: on such data the Total is the mathematical sum of the
    record's counts. *)
Theorem totalRange_integer_counts (rows : list record) (r : record)
    (counts : gmap jsstring Z)
    (Hr : r ∈ rows)
    (Hcounts : years r = Num.of_Z <$> counts)
    (Hnonneg : ∀ y z, counts !! y = Some z → (0 ≤ z)%Z)
    (Hsmall : (Zsum (map_to_list counts).*2 < 2 ^ 53)%Z) :
  let x := attach (allYears rows) (allYears rows) r in
  totalRange x = Num.of_Z (Zsum (map_to_list counts).*2) ∧
  (Num.to_Q (totalRange x) == inject_Z (Zsum (map_to_list counts).*2))%Q.
Proof.
  intros x.
  assert (Hsum : Zsum ((λ y, default 0%Z (counts !! y)) <$> allYears rows) =
                 Zsum (map_to_list counts).*2).
  { apply Zsum_along_index; [apply NoDup_allYears|].
    intros k Hk. apply elem_of_allYears. exists r. split; [done|].
    rewrite Hcounts, lookup_fmap. by apply fmap_is_Some. }
  assert (Hall : Forall (λ z, (0 ≤ z)%Z)
                   ((λ y, default 0%Z (counts !! y)) <$> allYears rows)).
  { apply Forall_fmap, Forall_forall. intros y _. simpl.
    destruct (counts !! y) as [z|] eqn:Hy; simpl; [by eapply Hnonneg|done]. }
  assert (Htotal : totalRange x = Num.of_Z (Zsum (map_to_list counts).*2)).
  { subst x. unfold attach. cbn [totalRange]. rewrite Hcounts, reduce_fmap.
    rewrite (list_fmap_ext _ (λ y, Num.of_Z (default 0%Z (counts !! y))) (allYears rows))
      by (intros i y _; by apply year_or_zero_of_Z).
    rewrite <- Hsum, <- (sum64_of_Z _ Hall) by (by rewrite Hsum).
    by rewrite <- list_fmap_compose. }
  split; [done|]. rewrite Htotal. apply of_Z_exact. split; [|done].
  rewrite <- Hsum. by apply Zsum_nonneg.
Qed.

Lemma totalRange_integer_counts_witness :
  let rows := [scenario_record; other_record] in
  let counts : gmap jsstring Z := list_to_map [(js "2017-18", 4%Z); (js "2021-22", 2%Z)] in
  let x := attach (allYears rows) (allYears rows) other_record in
  totalRange x = Num.of_Z (Zsum (map_to_list counts).*2) ∧
  (Num.to_Q (totalRange x) == inject_Z (Zsum (map_to_list counts).*2))%Q.
Proof.
  intros rows counts.
  apply (totalRange_integer_counts rows other_record counts).
  - right. left.
  - by vm_compute.
  - intros y z Hy. apply elem_of_map_to_list in Hy. vm_compute in Hy.
    inversion Hy as [|? ? ? Hy1]; subst; [lia|].
    inversion Hy1 as [|? ? ? Hy2]; subst; [lia|]. inversion Hy2.
  - by vm_compute.
Defined.

(** ** The assessor on integer counts *)

Lemma fkey_of_Z (z : Z) :
  (0 ≤ z < 2 ^ 53)%Z →
  fkey (Num.of_Z z) =
    if decide (z = 0%Z) then (0, 0, 0)%Z
    else (1, Z.log2 z - 52, z * 2 ^ (52 - Z.log2 z))%Z.
Proof.
  intros [Hz0 Hz]. destruct z as [|n|n]; [done| |lia].
  destruct (decide _) as [|_]; [done|].
  unfold fkey. rewrite Prim2SF_of_Z_pos.
  destruct (round_pos_integer_form false n Hz) as (q & -> & Hq & _ & _).
  simpl. by rewrite Hq.
Qed.

(** On the integers below [2^53] the order of the doubles is the order of
    the integers. *)
Lemma of_Z_key_lt (a b : Z) :
  (0 ≤ a < 2 ^ 53)%Z → (0 ≤ b < 2 ^ 53)%Z →
  key_lt (fkey (Num.of_Z a)) (fkey (Num.of_Z b)) ↔ (a < b)%Z.
Proof.
  intros Ha Hb. rewrite !fkey_of_Z by done. unfold key_lt.
  destruct (decide (a = 0%Z)) as [->|Ha0], (decide (b = 0%Z)) as [->|Hb0]; simpl;
    [lia|lia|lia|].
  pose proof (Z.log2_spec a ltac:(lia)) as [Hla1 Hla2].
  pose proof (Z.log2_spec b ltac:(lia)) as [Hlb1 Hlb2].
  assert (Hla : (Z.log2 a < 53)%Z) by (apply Z.log2_lt_pow2; lia).
  assert (Hlb : (Z.log2 b < 53)%Z) by (apply Z.log2_lt_pow2; lia).
  pose proof (Z.log2_nonneg a). pose proof (Z.log2_nonneg b).
  split.
  - intros [?|[_ [Hl|[Hl Hm]]]]; [lia| |].
    + assert ((2 ^ Z.succ (Z.log2 a) ≤ 2 ^ Z.log2 b)%Z)
        by (apply Z.pow_le_mono_r; lia).
      lia.
    + assert (Hl' : Z.log2 a = Z.log2 b) by lia. rewrite Hl' in Hm.
      apply Z.mul_lt_mono_pos_r in Hm; [done|]. apply Z.pow_pos_nonneg; lia.
  - intros Hab. right. split; [done|].
    pose proof (Z.log2_le_mono a b ltac:(lia)).
    destruct (decide (Z.log2 a = Z.log2 b)) as [Hl|Hl]; [|left; lia].
    right. split; [lia|]. rewrite Hl.
    apply Z.mul_lt_mono_pos_r; [|done]. apply Z.pow_pos_nonneg; lia.
Qed.

Lemma of_Z_ltb (a b : Z) :
  (0 ≤ a < 2 ^ 53)%Z → (0 ≤ b < 2 ^ 53)%Z →
  (Num.of_Z a <? Num.of_Z b)%float = true ↔ (a < b)%Z.
Proof.
  intros Ha Hb.
  rewrite ltb_key; [by apply of_Z_key_lt|apply of_Z_nonneg; lia|apply of_Z_nonneg; lia].
Qed.

Lemma of_Z_leb (a b : Z) :
  (0 ≤ a < 2 ^ 53)%Z → (0 ≤ b < 2 ^ 53)%Z →
  (Num.of_Z a <=? Num.of_Z b)%float = true ↔ (a ≤ b)%Z.
Proof.
  intros Ha Hb.
  rewrite leb_key; [|apply of_Z_nonneg; lia|apply of_Z_nonneg; lia].
  rewrite of_Z_key_lt by done. lia.
Qed.

Lemma of_Z_eqb_zero (z : Z) :
  (0 ≤ z < 2 ^ 53)%Z → (Num.of_Z z =? 0)%float = true ↔ z = 0%Z.
Proof.
  intros [Hz0 Hz]. destruct z as [|n|n]; [done| |lia].
  rewrite FloatAxioms.eqb_spec, Prim2SF_of_Z_pos.
  destruct (round_pos_integer_form false n Hz) as (q & -> & _).
  done.
Qed.

Lemma elem_le_Zsum (zs : list Z) (z : Z) :
  Forall (λ z, (0 ≤ z)%Z) zs → z ∈ zs → (0 ≤ z ≤ Zsum zs)%Z.
Proof.
  induction 1 as [|x zs Hx Hzs IH]; intros Hin; [by apply elem_of_nil in Hin|].
  rewrite Zsum_cons. pose proof (Zsum_nonneg zs Hzs).
  apply elem_of_cons in Hin as [->|Hin]; [lia|]. specialize (IH Hin). lia.
Qed.

Lemma count_zeros_of_Z (zs : list Z) :
  Forall (λ z, (0 ≤ z < 2 ^ 53)%Z) zs →
  count_zeros (Num.of_Z <$> zs) = length (filter (λ z, z = 0%Z) zs).
Proof.
  unfold count_zeros. induction 1 as [|z zs Hz _ IH]; [done|].
  rewrite fmap_cons, !filter_cons.
  pose proof (of_Z_eqb_zero z Hz) as Hiff.
  destruct (decide ((Num.of_Z z =? 0)%float = true)) as [He|He],
           (decide (z = 0%Z)) as [Hz0|Hz0]; simpl; try (by rewrite IH).
  - by apply Hiff in He.
  - by apply Hiff in Hz0.
Qed.

(** The average of a total below 15 over one to five labels is below 3
    exactly when the total is below three times the number of labels. *)
Lemma low_average (s : Z) (n : nat) :
  (0 ≤ s < 15)%Z → (1 ≤ n ≤ 5)%nat →
  (Num.of_Z s / Num.of_nat n <? 3)%float = true ↔ (s < 3 * Z.of_nat n)%Z.
Proof.
  intros Hs Hn.
  assert (Hcases : (s = 0 ∨ s = 1 ∨ s = 2 ∨ s = 3 ∨ s = 4 ∨ s = 5 ∨ s = 6 ∨ s = 7 ∨
                    s = 8 ∨ s = 9 ∨ s = 10 ∨ s = 11 ∨ s = 12 ∨ s = 13 ∨ s = 14)%Z) by lia.
  destruct n as [|[|[|[|[|[|n]]]]]]; try lia;
    repeat (destruct Hcases as [->|Hcases]); try subst s;
    vm_compute; split; done.
Qed.

Lemma average_below (s : Z) (n : nat) :
  (1 ≤ n ≤ 5)%nat →
  (inject_Z s / inject_Z (Z.of_nat n) < 3)%Q ↔ (s < 3 * Z.of_nat n)%Z.
Proof.
  intros Hn.
  destruct n as [|[|[|[|[|[|n]]]]]]; try lia;
    unfold Qlt, Qdiv, Qmult, Qinv, inject_Z; simpl; lia.
Qed.

(** X17: for a record whose counts are non-negative integers with a
    five-label total below [2^53], the assessor's rule holds with exact
    arithmetic: the record is flagged exactly when the exact total over the
    last five labels is below 15 with an exact average below 3, or at least
    three of the counts are 0, or the greatest count is below 3. *)
Theorem assessRecDeact_integer_counts (row : record) (allYears : list jsstring)
    (counts : gmap jsstring Z)
    (Hnonempty : allYears ≠ [])
    (Hcounts : years row = Num.of_Z <$> counts)
    (Hnonneg : ∀ y z, counts !! y = Some z → (0 ≤ z)%Z)
    (Hsmall : (Zsum (counts_along counts (last_labels 5 allYears)) < 2 ^ 53)%Z) :
  let zs := counts_along counts (last_labels 5 allYears) in
  flag (assessRecDeact row allYears) = true ↔
    ((Zsum zs < 15)%Z ∧ (inject_Z (Zsum zs) / inject_Z (Z.of_nat (length zs)) < 3)%Q) ∨
    (3 ≤ length (filter (λ z, z = 0%Z) zs))%nat ∨
    (∃ m, m ∈ zs ∧ (∀ z, z ∈ zs → (z ≤ m)%Z) ∧ (m < 3)%Z).
Proof.
  intros zs. subst zs. revert Hsmall. unfold last_labels.
  rewrite <- slice_from_last5.
  assert (Hlen : (length (Arr.slice_from (-5)%Z allYears) ≤ 5)%nat).
  { rewrite slice_from_last5, length_drop. lia. }
  destruct (Arr.slice_from (-5)%Z allYears) as [|y0 rest] eqn:Hs.
  { apply (proj1 (slice_from_last5_nil _)) in Hs. contradiction. }
  intros Hsmall.
  rewrite (assessRecDeact_flag row y0 rest allYears Hs).
  destruct (last5_stats_spec row y0 rest) as (_ & Ht & Ha & Hz & Hp).
  cbv zeta in *. rewrite Ht, Ha, Hz. clear Ht Ha Hz.
  set (labels := y0 :: rest) in *.
  set (zs := counts_along counts labels) in *.
  assert (Hvals : count_of row <$> labels = Num.of_Z <$> zs).
  { subst zs. unfold counts_along. rewrite <- list_fmap_compose.
    apply list_fmap_ext. intros i y _. simpl.
    rewrite <- year_or_zero_count, Hcounts. by apply year_or_zero_of_Z. }
  assert (Hall : Forall (λ z, (0 ≤ z)%Z) zs).
  { apply Forall_fmap, Forall_forall. intros y _. simpl.
    destruct (counts !! y) as [z|] eqn:Hy; simpl; [by eapply Hnonneg|done]. }
  assert (Hbound : Forall (λ z, (0 ≤ z < 2 ^ 53)%Z) zs).
  { apply Forall_forall. intros z Hz. pose proof (elem_le_Zsum zs z Hall Hz). lia. }
  assert (Hn : length zs = length labels) by (subst zs; unfold counts_along; by rewrite length_fmap).
  assert (Hn15 : (1 ≤ length labels ≤ 5)%nat) by (subst labels; simpl in *; lia).
  pose proof (Zsum_nonneg zs Hall) as Hs0.
  rewrite Hvals in *. rewrite (sum64_of_Z zs Hall Hsmall), (count_zeros_of_Z zs Hbound).
  rewrite Hn, (average_below _ _ Hn15).
  unfold REC_MIN_TOTAL_5Y, REC_MIN_AVG_5Y, REC_MIN_PEAK_5Y.
  change 15%float with (Num.of_Z 15). change 3%float with (Num.of_Z 3) at 2.
  rewrite !orb_true_iff, andb_true_iff, bool_decide_eq_true.
  rewrite (of_Z_ltb (Zsum zs) 15) by lia.
  destruct Hp as [Hpin Hpmax].
  apply list_elem_of_fmap in Hpin as (m & Hpm & Hm).
  rewrite Forall_forall in Hbound.
  assert (Hmmax : ∀ z, z ∈ zs → (z ≤ m)%Z).
  { intros z Hz. apply (of_Z_leb z m); [by apply Hbound..|].
    rewrite <- Hpm. apply Hpmax. apply list_elem_of_fmap. by exists z. }
  rewrite Hpm, (of_Z_ltb m 3) by (lia || by apply Hbound).
  assert (Hlow : (Zsum zs < 15)%Z →
    (Num.of_Z (Zsum zs) / Num.of_nat (length labels) <? 3)%float = true ↔
    (Zsum zs < 3 * Z.of_nat (length labels))%Z).
  { intros H15. apply low_average; [lia|done]. }
  split.
  - intros [[[H15 Havg]|Hzeros]|Hpeak].
    + left. split; [done|]. by apply Hlow.
    + by right; left.
    + right; right. by exists m.
  - intros [[H15 Havg]|[Hzeros|(m' & Hm' & Hmax' & Hlt)]].
    + left; left. split; [done|]. by apply Hlow.
    + by left; right.
    + right. pose proof (Hmax' m Hm). lia.
Qed.

Lemma assessRecDeact_integer_counts_witness :
  let counts : gmap jsstring Z := list_to_map [(js "2022-23", 12%Z); (js "2023-24", 7%Z)] in
  let zs := counts_along counts (last_labels 5 scenario_years) in
  flag (assessRecDeact media_record scenario_years) = true ↔
    ((Zsum zs < 15)%Z ∧ (inject_Z (Zsum zs) / inject_Z (Z.of_nat (length zs)) < 3)%Q) ∨
    (3 ≤ length (filter (λ z, z = 0%Z) zs))%nat ∨
    (∃ m, m ∈ zs ∧ (∀ z, z ∈ zs → (z ≤ m)%Z) ∧ (m < 3)%Z).
Proof.
  intros counts.
  apply (assessRecDeact_integer_counts media_record scenario_years counts).
  - unfold scenario_years. discriminate.
  - by vm_compute.
  - intros y z Hy. apply elem_of_map_to_list in Hy. vm_compute in Hy.
    inversion Hy as [|? ? ? Hy1]; subst; [lia|].
    inversion Hy1 as [|? ? ? Hy2]; subst; [lia|]. inversion Hy2.
  - by vm_compute.
Defined.
